(** * pydoctor.templatewriter.pages: a shallow embedding

    The module [pydoctor/templatewriter/pages/__init__.py] turns
    documentable objects into trees of HTML nodes.  This development
    embeds the functions of that module that walk the class hierarchy
    ([nested_bases], [unmasked_attrs], [overriding_subclasses]), that
    assemble cross-reference lists ([assembleList]), that build the
    package and class pages, and the constructor [BaseElement.__init__],
    and proves properties of them.

    Conventions of the embedding.
    - Python objects live in an object store: a documentable is named by
      a reference ([ref]) and read through [deref], so that two
      occurrences of one class in a diamond are the same object.
    - A raised exception is an outcome of the [result] monad.  Python's
      recursion limit is the [fuel] of the recursive walks: a walk that
      exceeds it raises [RecursionError].
    - Strings are byte strings; [str.lower] acts on ASCII letters.
    - The nodes built through [twisted.web.template.tags] and the calls
      to collaborators that are not part of this module
      ([epydoc2stan.taglink], [ChildTable]) are constructors of [Stan]. *)

From stdpp Require Import base option list gmap strings pretty sorting.

Set Warnings "-register-all".
Open Scope string_scope.
Open Scope list_scope.
Open Scope nat_scope.

(** ** Outcomes of a Python call *)

Inductive exn : Type :=
| RuntimeError (msg : string)
| KeyError (key : string)
| IndexError
| RecursionError.

Inductive result (A : Type) : Type :=
| Return (a : A)
| Raise (e : exn).
Arguments Return {A} a.
Arguments Raise {A} e.

#[global] Instance result_ret : MRet result := λ A a, Return a.
#[global] Instance result_bind : MBind result := λ A B f r,
  match r with
  | Return a => f a
  | Raise e => Raise e
  end.
#[global] Instance result_fmap : FMap result := λ A B f r,
  match r with
  | Return a => Return (f a)
  | Raise e => Raise e
  end.

(** [for x in xs: body], threading the loop state. *)
Fixpoint for_loop {A S : Type} (xs : list A) (body : A → S → result S) (s : S)
  : result S :=
  match xs with
  | [] => Return s
  | x :: xs' => s' ← body x s; for_loop xs' body s'
  end.

(** ** Python dictionaries, in insertion order *)

Definition dict (V : Type) : Type := list (string * V).

Fixpoint dict_get {V : Type} (d : dict V) (k : string) : option V :=
  match d with
  | [] => None
  | (k', v) :: d' => if decide (k' = k) then Some v else dict_get d' k
  end.

(** [k in d] *)
Definition dict_mem {V : Type} (d : dict V) (k : string) : bool :=
  match dict_get d k with
  | Some _ => true
  | None => false
  end.

(** [d.values()] *)
Definition values {V : Type} (d : dict V) : list V := d.*2.

(** [d[k]] *)
Definition dict_index {V : Type} (d : dict V) (k : string) : result V :=
  match dict_get d k with
  | Some v => Return v
  | None => Raise (KeyError k)
  end.

(** [sorted(l, key=key)]: a stable sort, here by insertion from the right. *)
Fixpoint insert_sorted {A : Type} (le : A → A → bool) (x : A) (l : list A)
  : list A :=
  match l with
  | [] => [x]
  | y :: l' => if le x y then x :: l else y :: insert_sorted le x l'
  end.

Definition sorted {A K : Type} (le : K → K → bool) (key : A → K) (l : list A)
  : list A :=
  foldr (insert_sorted (λ a b, le (key a) (key b))) [] l.

(** [str.lower] on ASCII letters. *)
Definition ascii_lower (c : Ascii.ascii) : Ascii.ascii :=
  let n := Ascii.N_of_ascii c in
  if ((65 <=? n) && (n <=? 90))%N then Ascii.ascii_of_N (n + 32) else c.

Fixpoint lower (s : string) : string :=
  match s with
  | EmptyString => EmptyString
  | String c s' => String (ascii_lower c) (lower s')
  end.

(** [str.strip]: leading and trailing ASCII whitespace removed. *)
Definition is_space (c : Ascii.ascii) : bool :=
  let n := Ascii.N_of_ascii c in
  ((n =? 32) || ((9 <=? n) && (n <=? 13)))%N.

Fixpoint lstrip (s : string) : string :=
  match s with
  | EmptyString => EmptyString
  | String c s' => if is_space c then lstrip s' else s
  end.

Fixpoint rstrip (s : string) : string :=
  match s with
  | EmptyString => EmptyString
  | String c s' =>
      match rstrip s' with
      | EmptyString => if is_space c then EmptyString else String c EmptyString
      | t => String c t
      end
  end.

Definition strip (s : string) : string := rstrip (lstrip s).

(** [del r[-1]] *)
Fixpoint del_last {A : Type} (r : list A) : result (list A) :=
  match r with
  | [] => Raise IndexError
  | [_] => Return []
  | x :: r' => r'' ← del_last r'; Return (x :: r'')
  end.

(** ** The object model read by the pages (pydoctor.model) *)

Definition ref : Type := nat.

(** The part of Python's [ast] that a decorator expression is made of. *)
Inductive ast_expr : Type :=
| ast_Name (id : string)
| ast_Attribute (value : ast_expr) (attr : string)
| ast_Call (func : ast_expr) (args : list ast_expr)
| ast_Constant (repr : string).

Inductive DocLocation : Type := OWN_PAGE | PARENT_PAGE | UNDER_PARENT_DOCSTRING.

Record Documentable : Type := mkDocumentable {
  name : string;
  fullName : string;                 (* the value of [fullName()] *)
  isVisible : bool;
  privacyClass_value : Z;            (* [privacyClass.value] *)
  contents : dict ref;
  baseobjects : list (option ref);   (* [None] for an external base *)
  subclasses : list ref;
  page_object_url : string;          (* [page_object.url] *)
  documentation_location : DocLocation;
  is_Function : bool;                (* [isinstance(_, model.Function)] *)
  decorators : option (list ast_expr);
  parent : option ref;
}.

Record System : Type := mkSystem {
  allobjects : gmap string ref;
}.

Definition chain : Type := list ref.

(** ** The node trees that the pages build *)

Inductive Stan : Type :=
| Str (s : string)
| Tag (tag : string) (attributes : list (string * string)) (children : list Stan)
| Seq (items : list Stan)                       (* a Python list or tuple *)
| taglink (o : ref) (page_url : string) (label : option string)
| ChildTable (ob : ref) (children : list ref).

(** What [functionExtras] computes for one member: the nodes it returns
    and, when the member has overriding subclasses, the value bound to its
    local [idbase], which is handed to [assembleList]. *)
Record Extras : Type := mkExtras {
  extras_nodes : list Stan;
  extras_idbase : option string;
}.

Inductive Child : Type :=
| FunctionChild (c : ref) (extras : Extras)
| AttributeChild (c : ref) (extras : Extras).

Definition child_extras (ch : Child) : Extras :=
  match ch with
  | FunctionChild _ e => e
  | AttributeChild _ e => e
  end.

Record ClassPage : Type := mkClassPage {
  ob : ref;
  baselists : list (chain * list ref);
  overridenInCount : nat;
}.

(** ** BaseElement *)

Definition ITemplateLoader : Type := nat.

Inductive Renderable : Type :=
| provides_ITemplateLoader (l : ITemplateLoader)
| other_renderable.

Record Template : Type := mkTemplate {
  renderable : Renderable;
  text : string;
}.

Record TemplateLookup : Type := mkTemplateLookup {
  get_template : string → Template;
}.

Record BaseElement : Type := mkBaseElement {
  system : option System;
  template_lookup : option TemplateLookup;
  _loader : option ITemplateLoader;      (* [None]: the attribute is unset *)
}.

Definition no_provider_msg : string :=
  "Cannot create HTML element because template renderable property is not a ITemplateLoader provider.".
Definition no_lookup_msg : string :=
  "Cannot create HTML element because no TemplateLookup object is passed to BaseElement's 'template_lookup' init argument.".
Definition no_loader_msg : string :=
  "Cannot create HTML element because no ITemplateLoader object is passed to BaseElement's 'loader' init argument.".

(** [BaseElement.__init__], for a subclass whose [filename] attribute is
    [filename].  An argument that is [None] is falsy and an object is
    truthy.  The three [RuntimeError(...)] expressions of the source are
    expression statements: the exception object is built and dropped,
    there is no [raise].  The messages are those of the source without
    the text of [self].  [super().__init__()] is called without a loader
    and sets nothing. *)
Definition BaseElement_init (filename : string)
    (system : option System) (template_lookup : option TemplateLookup)
    (loader : option ITemplateLoader) : result BaseElement :=
  let self := mkBaseElement system template_lookup None in
  match loader with
  | Some l => Return (mkBaseElement system template_lookup (Some l))
  | None =>
      if negb (String.eqb filename "") then
        match template_lookup with
        | Some lookup =>
            let template := get_template lookup filename in
            match renderable template with
            | other_renderable =>
                let _ := RuntimeError no_provider_msg in
                Return self
            | provides_ITemplateLoader l =>
                Return (mkBaseElement system template_lookup (Some l))
            end
        | None =>
            let _ := RuntimeError no_lookup_msg in
            Return self
        end
      else
        let _ := RuntimeError no_loader_msg in
        Return self
  end.

(** The [loader] property: reading an unset [_loader] is an
    [AttributeError], which no caller of this module handles. *)
Definition loader (self : BaseElement) : option ITemplateLoader := _loader self.

Section Hierarchy.

Variable deref : ref → Documentable.

(** ** nested_bases *)

Fixpoint nested_bases (fuel : nat) (b : ref) : result (list chain) :=
  match fuel with
  | 0 => Raise RecursionError
  | S fuel' =>
      for_loop (baseobjects (deref b))
        (λ b2 r,
           match b2 with
           | None => Return r
           | Some b2 =>
               ns ← nested_bases fuel' b2;
               Return (r ++ ((λ n, n ++ [b]) <$> ns))
           end)
        [[b]]
  end.

(** ** unmasked_attrs *)

Definition unmasked_attrs (baselist : chain) : result (list ref) :=
  match baselist with
  | [] => Raise IndexError
  | b0 :: rest =>
      let maybe_masking : gset string :=
        list_to_set
          (b ← rest; o ← values (contents (deref b)); [name (deref o)]) in
      Return
        (List.filter
           (λ o, isVisible (deref o)
                 && bool_decide (name (deref o) ∉ maybe_masking))
           (values (contents (deref b0))))
  end.

(** The names that the members of a class go by. *)
Definition member_names (b : ref) : list string :=
  (λ o, name (deref o)) <$> values (contents (deref b)).

(** The resolvable bases of a class: [baseobjects] without its [None]s. *)
Definition resolved_bases (c : ref) : list ref :=
  omap id (baseobjects (deref c)).

(** [c] has the single-inheritance ancestry [p1; p2; ...; root]: its only
    resolvable base is [p1], whose only resolvable base is [p2], and so
    on up to [root], which has none. *)
Fixpoint linear_ancestry (c : ref) (ancestors : list ref) : Prop :=
  match ancestors with
  | [] => resolved_bases c = []
  | p :: up => resolved_bases c = [p] ∧ linear_ancestry p up
  end.

(** ** overriding_subclasses

    The generator is consumed whole by [sorted], so it is embedded as
    the list of what it yields. *)

Fixpoint overriding_subclasses (fuel : nat) (c : ref) (nm : string)
    (firstcall : bool) : result (list ref) :=
  match fuel with
  | 0 => Raise RecursionError
  | S fuel' =>
      if negb firstcall && dict_mem (contents (deref c)) nm then
        Return [c]
      else
        for_loop (subclasses (deref c))
          (λ sc r,
             if isVisible (deref sc) then
               ys ← overriding_subclasses fuel' sc nm false;
               Return (r ++ ys)
             else Return r)
          []
  end.

(** [sc] is found by the walk from [c]: it is reached from [c] through
    visible subclasses none of which has [nm], and it is itself visible
    and has [nm]. *)
Inductive first_overrider (nm : string) : ref → ref → Prop :=
| fo_direct c sc :
    sc ∈ subclasses (deref c) →
    isVisible (deref sc) = true →
    dict_mem (contents (deref sc)) nm = true →
    first_overrider nm c sc
| fo_deeper c sc d :
    sc ∈ subclasses (deref c) →
    isVisible (deref sc) = true →
    dict_mem (contents (deref sc)) nm = false →
    first_overrider nm sc d →
    first_overrider nm c d.

(** A proper descendant, at any depth of the subclass graph. *)
Inductive descendant : ref → ref → Prop :=
| desc_child c sc : sc ∈ subclasses (deref c) → descendant c sc
| desc_below c sc d : sc ∈ subclasses (deref c) → descendant sc d → descendant c d.

(** ** assembleList *)

(** The test of the filtering loop: [o is None or o.isVisible]. *)
Definition shown (system : System) (nm : string) : bool :=
  match allobjects system !! nm with
  | None => true
  | Some o => isVisible (deref o)
  end.

(** The inner function [one]. *)
Definition one (system : System) (page_url : string) (item : string) : Stan :=
  match allobjects system !! item with
  | Some o => Tag "code" [] [taglink o page_url None]
  | None => Str item
  end.

(** What one round of the loop of [commasep] appends. *)
Definition item_then_comma (system : System) (page_url : string) (item : string)
  : list Stan :=
  [one system page_url item; Str ", "].

(** The inner function [commasep]. *)
Definition commasep (system : System) (page_url : string) (items : list string)
  : result (list Stan) :=
  r ← for_loop items
        (λ item r, Return (r ++ item_then_comma system page_url item)) [];
  del_last r.

Definition assembleList (system : System) (label : string) (lst : list string)
    (idbase : string) (page_url : string) : result (option (list Stan)) :=
  let lst2 := List.filter (shown system) lst in
  let lst := lst2 in
  match lst with
  | [] => Return None
  | _ =>
      items ← commasep system page_url lst;
      Return (Some (Str label :: items))
  end.

(** ** CommonPage and PackagePage *)

Definition page_url (o : ref) : string := page_object_url (deref o).

(** The comparison of the sort keys [(-privacyClass.value, fullName())]. *)
Definition key_le (k1 k2 : Z * string) : bool :=
  (k1.1 <? k2.1)%Z || ((k1.1 =? k2.1)%Z && String.leb k1.2 k2.2).

Definition package_key (o2 : ref) : Z * string :=
  ((- privacyClass_value (deref o2))%Z, fullName (deref o2)).

Definition PackagePage_children (pkg : ref) : list ref :=
  sorted key_le package_key
    (List.filter
       (λ o, negb (String.eqb (name (deref o)) "__init__") && isVisible (deref o))
       (values (contents (deref pkg)))).

Definition from_init_label : Stan :=
  Tag "p" [("class", "fromInitPy")]
    [Str "From the "; Tag "code" [] [Str "__init__.py"]; Str " module:"].

Definition PackagePage_packageInitTable (pkg : ref) : result (list Stan) :=
  init ← dict_index (contents (deref pkg)) "__init__";
  let children :=
    sorted key_le package_key
      (List.filter (λ o, isVisible (deref o)) (values (contents (deref init)))) in
  match children with
  | [] => Return []
  | _ => Return [from_init_label; ChildTable init children]
  end.

(** [CommonPage.mainTable], given what the page's [children] method
    returns; the empty tuple is the empty sequence. *)
Definition mainTable (self_ob : ref) (children : list ref) : Stan :=
  match children with
  | [] => Seq []
  | _ => ChildTable self_ob children
  end.

Definition PackagePage_mainTable (pkg : ref) : Stan :=
  mainTable pkg (PackagePage_children pkg).

(** [CommonPage.methods] *)
Definition methods (self_ob : ref) : list ref :=
  List.filter
    (λ o, match documentation_location (deref o) with
          | PARENT_PAGE => isVisible (deref o)
          | _ => false
          end)
    (values (contents (deref self_ob))).

(** ** ClassPage

    Of the attributes of a class page the record [ClassPage] keeps those
    that [ClassPage.__init__] itself sets, next to [ob]; what
    [CommonPage.__init__] stores besides (the template lookup and the
    documentation getter) is read by none of the methods below. *)

Definition ClassPage_init (fuel : nat) (class : ref) : result ClassPage :=
  chains ← nested_bases fuel class;
  baselists ← for_loop chains
    (λ baselist acc,
       attrs ← unmasked_attrs baselist;
       match attrs with
       | [] => Return acc
       | _ => Return (acc ++ [(baselist, attrs)])
       end)
    [];
  Return (mkClassPage class baselists 0).

(** [model.Class.allbases] is not part of this module: [allbases c] stands
    for the classes that [c.allbases(include_self=False)] yields, in
    the order in which it yields them. *)
Variable allbases : ref → list ref.

(** The loop [for b in self.ob.allbases(include_self=False)] of
    [functionExtras], which either goes on to the next base or appends the
    annotation and breaks. *)
Fixpoint overrides_annotation (bases : list ref) (nm : string) (url : string)
  : result (list Stan) :=
  match bases with
  | [] => Return []
  | b :: bases' =>
      if negb (dict_mem (contents (deref b)) nm) then
        overrides_annotation bases' nm url
      else
        overridden ← dict_index (contents (deref b)) nm;
        Return [Tag "div" [("class", "interfaceinfo")]
                  [Str "overrides "; Tag "code" [] [taglink overridden url None]]]
  end.

(** [ClassPage.functionExtras]; [system] is [self.ob.system]. *)
Definition functionExtras (fuel : nat) (system : System) (self : ClassPage)
    (data : ref) : result (Extras * ClassPage) :=
  let url := page_url (ob self) in
  r ← overrides_annotation (allbases (ob self)) (name (deref data)) url;
  found ← overriding_subclasses fuel (ob self) (name (deref data)) true;
  let ocs := sorted String.leb (λ o, lower (fullName (deref o))) found in
  match ocs with
  | [] => Return (mkExtras r None, self)
  | _ =>
      let self := mkClassPage (ob self) (baselists self) (overridenInCount self + 1) in
      let idbase := "overridenIn" +:+ pretty (overridenInCount self) in
      l ← assembleList system "overridden in "
            ((λ o, fullName (deref o)) <$> ocs) idbase url;
      match l with
      | Some l =>
          Return (mkExtras (r ++ [Tag "div" [("class", "interfaceinfo")] [Seq l]])
                           (Some idbase), self)
      | None => Return (mkExtras r (Some idbase), self)
      end
  end.

(** [CommonPage.childlist] on a class page. *)
Definition childlist (fuel : nat) (system : System) (self : ClassPage)
  : result (list Child * ClassPage) :=
  for_loop (methods (ob self))
    (λ c '(r, self),
       '(extras, self) ← functionExtras fuel system self c;
       if is_Function (deref c)
       then Return (r ++ [FunctionChild c extras], self)
       else Return (r ++ [AttributeChild c extras], self))
    ([], self).

End Hierarchy.

(** ** format_decorators *)

Section Decorators.

Variable deref : ref → Documentable.
(** [pydoctor.astbuilder.node2fullname] and [astor.to_source] are not
    part of this module. *)
Variable node2fullname : ast_expr → ref → option string.
Variable to_source : ast_expr → string.

Definition br : Stan := Tag "br" [] [].

Definition deprecated_names : list string :=
  ["twisted.python.deprecate.deprecated";
   "twisted.python.deprecate.deprecatedProperty"].

(** The test that leads to [break]. *)
Definition is_deprecated_call (obj : ref) (dec : ast_expr) : bool :=
  match dec with
  | ast_Call func _ =>
      match node2fullname func obj with
      | Some fn => bool_decide (fn ∈ deprecated_names)
      | None => false
      end
  | _ => false
  end.

Fixpoint format_decorators_loop (obj : ref) (decs : list ast_expr)
  : list (string * Stan) :=
  match decs with
  | [] => []
  | dec :: decs' =>
      if is_deprecated_call obj dec then []
      else ("@" +:+ strip (to_source dec), br) :: format_decorators_loop obj decs'
  end.

Definition format_decorators (obj : ref) : list (string * Stan) :=
  format_decorators_loop obj (default [] (decorators (deref obj))).

End Decorators.

(** ** Example object stores *)

Definition blank : Documentable :=
  mkDocumentable "" "" false 0 [] [] [] "" OWN_PAGE false None None.

(** The store that holds [objs !! r] at reference [r]. *)
Definition store (objs : list Documentable) : ref → Documentable :=
  λ r, default blank (objs !! r).

Definition class_ (nm full : string) (visible : bool) (members : dict ref)
    (bases : list (option ref)) (subs : list ref) : Documentable :=
  mkDocumentable nm full visible (if visible then 2 else 0) members bases subs
    (full +:+ ".html") OWN_PAGE false None None.

Definition method_ (nm full : string) (owner : ref) : Documentable :=
  mkDocumentable nm full true 2 [] [] [] "" PARENT_PAGE true None (Some owner).

Definition registry (objs : list Documentable) : System :=
  mkSystem (list_to_map (imap (λ r o, (fullName o, r)) objs)).

(** [class B(A)] *)
Definition single_store : ref → Documentable :=
  store [class_ "A" "mod.A" true [] [] [1];
         class_ "B" "mod.B" true [] [Some 0] []].

(** [class A: m], [class B(A): m], [class C(A)], [class D(B, C)];
    references 0 to 3 are A to D, 4 is [A.m] and 5 is [B.m]. *)
Definition diamond_objs : list Documentable :=
  [class_ "A" "mod.A" true [("m", 4)] [] [1; 2];
   class_ "B" "mod.B" true [("m", 5)] [Some 0] [3];
   class_ "C" "mod.C" true [] [Some 0] [3];
   class_ "D" "mod.D" true [] [Some 1; Some 2] [];
   method_ "m" "mod.A.m" 0;
   method_ "m" "mod.B.m" 1].
Definition diamond_store : ref → Documentable := store diamond_objs.

(** [class Base: m] and [class Derived(Base): m]; 2 is [Base.m] and 3 is
    [Derived.m]. *)
Definition override_objs : list Documentable :=
  [class_ "Base" "mod.Base" true [("m", 2)] [] [1];
   class_ "Derived" "mod.Derived" true [("m", 3)] [Some 0] [];
   method_ "m" "mod.Base.m" 0;
   method_ "m" "mod.Derived.m" 1].
Definition override_store : ref → Documentable := store override_objs.

(** Modelled from the spec: [allbases] yields the transitive bases of a
    class, most derived first; [Derived] has the single base [Base]. *)
Definition override_allbases : ref → list ref :=
  λ c, match c with 1 => [0] | _ => [] end.

(** [class Base: m], a hidden [class _Mid(Base)] and a visible
    [class Leaf(_Mid): m]; 3 is [Base.m] and 4 is [Leaf.m]. *)
Definition hidden_mid_objs : list Documentable :=
  [class_ "Base" "mod.Base" true [("m", 3)] [] [1];
   class_ "_Mid" "mod._Mid" false [] [Some 0] [2];
   class_ "Leaf" "mod.Leaf" true [("m", 4)] [Some 1] [];
   method_ "m" "mod.Base.m" 0;
   method_ "m" "mod.Leaf.m" 2].
Definition hidden_mid_store : ref → Documentable := store hidden_mid_objs.

(** Modelled from the spec: the transitive bases, most derived first. *)
Definition hidden_mid_allbases : ref → list ref :=
  λ c, match c with 1 => [0] | 2 => [1; 0] | _ => [] end.

(** Three visible registered classes [x], [y] and [z]. *)
Definition xyz_objs : list Documentable :=
  [class_ "x" "x" true [] [] [];
   class_ "y" "y" true [] [] [];
   class_ "z" "z" true [] [] []].
Definition xyz_store : ref → Documentable := store xyz_objs.

(** A package [pkg] with [pkg/__init__.py] defining [f] and a module
    [pkg/sub.py]. *)
Definition package_objs : list Documentable :=
  [mkDocumentable "pkg" "pkg" true 2 [("__init__", 1); ("sub", 2)] [] []
     "pkg.html" OWN_PAGE false None None;
   mkDocumentable "__init__" "pkg.__init__" true 2 [("f", 3)] [] []
     "pkg.html" OWN_PAGE false None (Some 0);
   mkDocumentable "sub" "pkg.sub" true 2 [] [] []
     "pkg.sub.html" OWN_PAGE false None (Some 0);
   method_ "f" "pkg.f" 1].
Definition package_store : ref → Documentable := store package_objs.

(** A template lookup whose templates provide no loader. *)
Definition lookup_without_loader : TemplateLookup :=
  mkTemplateLookup (λ _, mkTemplate other_renderable "").

(** A function decorated with [@first], [@deprecated(Version(...))] and
    [@last]. *)
Definition decorated_objs : list Documentable :=
  [mkDocumentable "f" "mod.f" true 2 [] [] [] "mod.html" PARENT_PAGE true
     (Some [ast_Name "first";
            ast_Call (ast_Name "deprecated") [ast_Constant "Version(...)"];
            ast_Name "last"])
     None].
Definition decorated_store : ref → Documentable := store decorated_objs.
Definition example_node2fullname : ast_expr → ref → option string :=
  λ e _, match e with
         | ast_Name "deprecated" => Some "twisted.python.deprecate.deprecated"
         | ast_Name id => Some id
         | _ => None
         end.
Definition newline : string := String (Ascii.ascii_of_nat 10) "".
Definition example_to_source : ast_expr → string :=
  λ e, match e with
       | ast_Name id => id +:+ newline
       | _ => "<expr>" +:+ newline
       end.

(** ** More of the pages

    The rest of [CommonPage], [PackagePage] and [ClassPage] that builds
    lists of nodes from the object model. *)

(** [data[1:-1]] *)
Definition slice_inner {A : Type} (data : list A) : list A :=
  drop 1 (take (length data - 1) data).

(** What [baseTables] fills the slots of one clone of its item with. *)
Record BaseTableSlots : Type := mkBaseTableSlots {
  slot_baseName : list Stan;
  slot_baseTable : Stan;
}.

Definition child_ob (ch : Child) : ref :=
  match ch with
  | FunctionChild c _ => c
  | AttributeChild c _ => c
  end.

Section MorePages.

Variable deref : ref → Documentable.

(** A chain of [b]: the class alone, or a chain of one of its resolvable
    bases followed by the class. *)
Inductive base_chain : ref → chain → Prop :=
| base_chain_self b : base_chain b [b]
| base_chain_via b p n :
    p ∈ resolved_bases deref b → base_chain p n → base_chain b (n ++ [b]).

(** [CommonPage.children] *)
Definition CommonPage_children (self_ob : ref) : list ref :=
  sorted Z.leb (λ o, (- privacyClass_value (deref o))%Z)
    (List.filter (λ o, isVisible (deref o)) (values (contents (deref self_ob)))).

(** [PackagePage.methods] *)
Definition PackagePage_methods (pkg : ref) : result (list ref) :=
  init ← dict_index (contents (deref pkg)) "__init__";
  Return (methods deref init).

(** [o] has the owners [p1; ...; root]: its parent is [p1], whose parent
    is [p2], and so on up to [root], which has none. *)
Fixpoint parent_chain (o : ref) (owners : list ref) : Prop :=
  match owners with
  | [] => parent (deref o) = None
  | p :: up => parent (deref o) = Some p ∧ parent_chain p up
  end.

(** [ob.documentation_location is model.DocLocation.OWN_PAGE] *)
Definition has_own_page (o : ref) : bool :=
  match documentation_location (deref o) with
  | OWN_PAGE => true
  | _ => false
  end.

(** [tags.code(epydoc2stan.taglink(ob, page_url, ob.name))] *)
Definition name_link (url : string) (o : ref) : Stan :=
  Tag "code" [] [taglink o url (Some (name (deref o)))].

(** [tags.wbr], the tag itself. *)
Definition wbr : Stan := Tag "wbr" [] [].

(** The loop [while ob: ...; ob = ob.parent] of [CommonPage.namespace].
    A [while] loop is not bounded by the recursion limit: [None] is for a
    loop that has not ended after [fuel] rounds. *)
Fixpoint namespace_loop (fuel : nat) (url : string) (o : option ref)
    (parts : list Stan) : option (list Stan) :=
  match o with
  | None => Some parts
  | Some o =>
      match fuel with
      | 0 => None
      | S fuel' =>
          let parts :=
            match documentation_location (deref o) with
            | OWN_PAGE =>
                let parts :=
                  match parts with
                  | [] => parts
                  | _ => parts ++ [Str "."; wbr]
                  end in
                parts ++ [name_link url o]
            | _ => parts
            end in
          namespace_loop fuel' url (parent (deref o)) parts
      end
  end.

(** [CommonPage.namespace], on the page of [self_ob]. *)
Definition namespace (fuel : nat) (self_ob : ref) (obj : ref) : option (list Stan) :=
  parts ← namespace_loop fuel (page_url deref self_ob) (Some obj) [];
  Some (reverse parts).

(** [CommonPage.part] *)
Definition part (fuel : nat) (self_ob : ref) : option (list Stan) :=
  match parent (deref self_ob) with
  | Some p =>
      ns ← namespace fuel self_ob p;
      Some [Str "Part of "; Tag "code" [] [Seq ns]]
  | None => Some []
  end.

(** [ClassPage.baseName] *)
Definition baseName (self_ob : ref) (data : chain) : result (list Stan) :=
  let url := page_url deref self_ob in
  match data with
  | [] => Raise IndexError
  | source_base :: _ =>
      let r := [name_link url source_base] in
      let bases_to_mention := slice_inner data in
      match bases_to_mention with
      | [] => Return r
      | _ =>
          tail ← for_loop (reverse bases_to_mention)
                   (λ b tail, Return (tail ++ [name_link url b; Str ", "]))
                   [];
          tail ← del_last tail;
          Return (r ++ [Str " (via "; Seq tail; Str ")"])
      end
  end.

(** [ClassPage.baseTables]; the comparison [==] of two documentables is
    that of their identities. *)
Definition baseTables (self : ClassPage) : result (list BaseTableSlots) :=
  let baselists := baselists self in
  match baselists with
  | [] => Return []
  | first :: rest =>
      source_base ← match first.1 with
                    | [] => Raise IndexError
                    | b :: _ => Return b
                    end;
      let baselists :=
        if decide (source_base = ob self) then rest else baselists in
      for_loop baselists
        (λ '(b, attrs) acc,
           nm ← baseName (ob self) b;
           Return (acc ++ [mkBaseTableSlots nm
                             (ChildTable (ob self)
                                (sorted Z.leb
                                   (λ o, (- privacyClass_value (deref o))%Z)
                                   attrs))]))
        []
  end.

(** Attributes of the object model that [classSignature] and [extras]
    read and that are not in [Documentable]: the raw and the resolved
    names of the bases of a class, the [url] of an object, the lookup
    [system.intersphinx.getLink] and [util.srclink]. *)
Variable rawbases : ref → list string.
Variable bases : ref → list string.
Variable url : ref → string.
Variable intersphinx_getLink : string → option string.
Variable srclink : ref → option string.

(** What the loop of [classSignature] appends for one base: a link to
    the page of an internal class or to the external documentation that
    intersphinx knows, and a [span] when there is no link. *)
Definition base_node (nm full_name : string) (base : option ref) : Stan :=
  let link :=
    match base with
    | None => intersphinx_getLink full_name
    | Some base => Some (url base)
    end in
  match link with
  | None => Tag "span" [("title", full_name)] [Str nm]
  | Some href => Tag "a" [("href", href); ("title", full_name)] [Str nm]
  end.

(** The loop of [classSignature] over the enumerated triples. *)
Fixpoint classSignature_loop (idx : nat)
    (zipped : list (string * string * option ref)) (r : list Stan) : list Stan :=
  match zipped with
  | [] => r
  | (nm, full_name, base) :: zipped' =>
      let r := if decide (idx ≠ 0) then r ++ [Str ", "] else r in
      classSignature_loop (S idx) zipped' (r ++ [base_node nm full_name base])
  end.

(** [ClassPage.classSignature] *)
Definition classSignature (self_ob : ref) : list Stan :=
  let zipped :=
    zip (zip (rawbases self_ob) (bases self_ob)) (baseobjects (deref self_ob)) in
  match zipped with
  | [] => []
  | _ => classSignature_loop 0 zipped [Str "("] ++ [Str ")"]
  end.


End MorePages.

(** [class A(B)] and [class B(A)]: a cycle of bases. *)
Definition cyclic_store : ref → Documentable :=
  store [class_ "A" "mod.A" true [] [Some 1] [1];
         class_ "B" "mod.B" true [] [Some 0] [0]].

(** A function decorated with [@deprecated], the bare name and not a
    call, and with [@wraps(g)]. *)
Definition bare_decorated_store : ref → Documentable :=
  store [mkDocumentable "f" "mod.f" true 2 [] [] [] "mod.html" PARENT_PAGE true
           (Some [ast_Name "deprecated";
                  ast_Call (ast_Name "wraps") [ast_Name "g"]])
           None].

(** A package [pkg] with a module [pkg/sub.py] and no [__init__]. *)
Definition bare_package_store : ref → Documentable :=
  store [mkDocumentable "pkg" "pkg" true 2 [("sub", 1)] [] []
           "pkg.html" OWN_PAGE false None None;
         mkDocumentable "sub" "pkg.sub" true 2 [] [] []
           "pkg.sub.html" OWN_PAGE false None (Some 0)].

(** * Properties *)

(** ** The [result] monad and the loop combinator *)

Lemma for_loop_app {A S : Type} (xs ys : list A) (body : A → S → result S) (s : S) :
  for_loop (xs ++ ys) body s = (s' ← for_loop xs body s; for_loop ys body s').
Proof.
  revert s. induction xs as [|x xs IH]; intros s; simpl; [done|].
  destruct (body x s) as [s'|e]; simpl; [apply IH|done].
Qed.

(** A loop that only appends what it finds returns the concatenation. *)
Lemma for_loop_append {A B : Type} (f : A → list B) (xs : list A) (acc : list B) :
  for_loop xs (λ x r, Return (r ++ f x)) acc = Return (acc ++ mjoin (f <$> xs)).
Proof.
  revert acc. induction xs as [|x xs IH]; intros acc; simpl.
  - by rewrite app_nil_r.
  - unfold mbind, result_bind. rewrite IH. by rewrite <-app_assoc.
Qed.

Lemma del_last_snoc {A : Type} (l : list A) (x : A) :
  del_last (l ++ [x]) = Return l.
Proof.
  induction l as [|y l IH]; simpl; [done|].
  rewrite IH. destruct (l ++ [x]) eqn:E; [by destruct l|done].
Qed.

(** ** Dictionaries *)

Lemma dict_mem_true {V : Type} (d : dict V) (k : string) :
  dict_mem d k = true → ∃ v, dict_get d k = Some v.
Proof. unfold dict_mem. destruct (dict_get d k); eauto; discriminate. Qed.

Lemma dict_index_mem {V : Type} (d : dict V) (k : string) :
  dict_mem d k = true → ∃ v, dict_get d k = Some v ∧ dict_index d k = Return v.
Proof.
  intros [v Hv]%dict_mem_true. exists v. unfold dict_index. by rewrite Hv.
Qed.

(** ** Sorting keeps the elements *)

Lemma insert_sorted_Permutation {A : Type} (le : A → A → bool) (x : A) (l : list A) :
  insert_sorted le x l ≡ₚ x :: l.
Proof.
  induction l as [|y l IH]; simpl; [done|].
  destruct (le x y); [done|]. rewrite IH. apply Permutation_swap.
Qed.

Lemma sorted_Permutation {A K : Type} (le : K → K → bool) (key : A → K) (l : list A) :
  sorted le key l ≡ₚ l.
Proof.
  unfold sorted. induction l as [|x l IH]; simpl; [done|].
  rewrite insert_sorted_Permutation. by rewrite IH.
Qed.

Lemma sorted_elem_of {A K : Type} (le : K → K → bool) (key : A → K) (l : list A) (x : A) :
  x ∈ sorted le key l ↔ x ∈ l.
Proof. by rewrite sorted_Permutation. Qed.

Lemma sorted_nil_iff {A K : Type} (le : K → K → bool) (key : A → K) (l : list A) :
  sorted le key l = [] ↔ l = [].
Proof.
  split; [|by intros ->].
  intros H. apply Permutation_nil_r. rewrite <-H. symmetry. apply sorted_Permutation.
Qed.

(** ** nested_bases *)

Section NestedBases.

Variable deref : ref → Documentable.

(** The loop over [baseobjects] only sees the resolvable bases. *)
Lemma nested_bases_unfold (fuel : nat) (b : ref) :
  nested_bases deref (S fuel) b =
  for_loop (resolved_bases deref b)
    (λ b2 r, ns ← nested_bases deref fuel b2;
             Return (r ++ ((λ n, n ++ [b]) <$> ns)))
    [[b]].
Proof.
  unfold resolved_bases. simpl.
  generalize [[b]]. induction (baseobjects (deref b)) as [|[b2|] bs IH]; intros r; simpl.
  - done.
  - destruct (nested_bases deref fuel b2) as [ns|e]; simpl; [apply IH|done].
  - apply IH.
Qed.

Lemma nested_bases_linear (c : ref) (ancestors : list ref) (fuel : nat) :
  linear_ancestry deref c ancestors →
  length ancestors < fuel →
  nested_bases deref fuel c =
  Return ((λ i, reverse (take i ancestors) ++ [c]) <$> seq 0 (S (length ancestors))).
Proof.
  revert c fuel. induction ancestors as [|p up IH]; intros c fuel Hlin Hfuel;
    (destruct fuel as [|fuel]; [simpl in Hfuel; lia|]);
    rewrite nested_bases_unfold; simpl in Hlin.
  - by rewrite Hlin.
  - destruct Hlin as [-> Hup]. simpl in Hfuel.
    cbn [for_loop]. rewrite (IH p fuel Hup) by lia. cbn [length].
    unfold mbind, result_bind. f_equal.
    transitivity ([c] :: ((λ i, reverse (take i (p :: up)) ++ [c])
                            <$> (S <$> seq 0 (S (length up))))).
    + apply (f_equal (cons [c])). rewrite <-!list_fmap_compose.
      apply list_fmap_ext. intros _ i _. simpl.
      rewrite reverse_cons. by rewrite <-app_assoc.
    + by rewrite fmap_S_seq.
Qed.

End NestedBases.

(** C1, as amended.  For a class whose ancestry is linear, with ancestors
    [p1; ...; pk] from its base up to the root, [nested_bases] returns
    [k + 1] chains: one for the class alone and one starting at each
    ancestor, the chain number [i] being [(pi, ..., p1, c)].  The last
    chain is the sequence from the root down to the class. *)
Theorem nested_bases_single_inheritance
    (deref : ref → Documentable) (c : ref) (ancestors : list ref) (fuel : nat) :
  linear_ancestry deref c ancestors →
  length ancestors < fuel →
  ∃ chains,
    nested_bases deref fuel c = Return chains
    ∧ length chains = S (length ancestors)
    ∧ (∀ i, i ≤ length ancestors →
         chains !! i = Some (reverse (take i ancestors) ++ [c]))
    ∧ last chains = Some (reverse ancestors ++ [c]).
Proof.
  intros Hlin Hfuel. eexists. split; [by apply nested_bases_linear|].
  assert (Hi : ∀ i, i ≤ length ancestors →
    ((λ i, reverse (take i ancestors) ++ [c]) <$> seq 0 (S (length ancestors))) !! i
    = Some (reverse (take i ancestors) ++ [c])).
  { intros i Hi. rewrite list_lookup_fmap, lookup_seq_lt by lia. done. }
  split; [by rewrite length_fmap, length_seq|]. split; [done|].
  rewrite last_lookup, length_fmap, length_seq. simpl.
  rewrite Hi by lia. by rewrite firstn_all.
Qed.

Lemma nested_bases_single_inheritance_witness :
  ∃ chains,
    nested_bases single_store 2 1 = Return chains
    ∧ length chains = 2
    ∧ (∀ i, i ≤ 1 → chains !! i = Some (reverse (take i [0]) ++ [1]))
    ∧ last chains = Some [0; 1].
Proof.
  apply (nested_bases_single_inheritance single_store 1 [0] 2).
  - vm_compute. done.
  - simpl. lia.
Defined.

(** C1 as stated fails: [class B(A)] has only single inheritance, and
    [nested_bases] returns two chains for [B], not the one chain [(A, B)]. *)
Lemma nested_bases_single_inheritance_two_chains :
  linear_ancestry single_store 1 [0]
  ∧ nested_bases single_store 2 1 = Return [[1]; [0; 1]]
  ∧ ¬ (∃ ch, nested_bases single_store 2 1 = Return [ch]).
Proof.
  split; [by vm_compute|]. split; [by vm_compute|].
  intros [ch Hch]. vm_compute in Hch. discriminate.
Qed.

(** ** unmasked_attrs *)

Section UnmaskedAttrs.

Variable deref : ref → Documentable.

(** The masking names of a chain are those of the members of the classes
    after its first element, and of no other class. *)
Lemma unmasked_attrs_elem_of (b0 : ref) (rest : chain) :
  ∃ l, unmasked_attrs deref (b0 :: rest) = Return l
       ∧ ∀ o, o ∈ l ↔ o ∈ values (contents (deref b0))
                      ∧ isVisible (deref o) = true
                      ∧ ∀ b, b ∈ rest → name (deref o) ∉ member_names deref b.
Proof.
  eexists. split; [reflexivity|]. intros o.
  rewrite list_elem_of_In, filter_In, <-list_elem_of_In, andb_true_iff, bool_decide_eq_true.
  rewrite not_elem_of_list_to_set.
  assert (Hmask : ∀ n,
    n ∈ (b ← rest; o ← values (contents (deref b)); [name (deref o)])
    ↔ ∃ b, b ∈ rest ∧ n ∈ member_names deref b).
  { intros n. rewrite list_elem_of_bind. unfold member_names.
    split; intros (b & H1 & H2); exists b.
    - split; [done|]. apply list_elem_of_bind in H1 as (o' & Ho' & Hin).
      apply list_elem_of_singleton in Ho' as ->.
      by apply (list_elem_of_fmap_2 (λ o, name (deref o))).
    - split; [|done]. apply list_elem_of_fmap in H2 as (o' & -> & Hin).
      apply list_elem_of_bind. exists o'. split; [by apply list_elem_of_singleton|done]. }
  rewrite Hmask. split.
  - intros (Hin & Hvis & Hno). split_and!; [done..|]. intros b Hb Hn. eauto.
  - intros (Hin & Hvis & Hno). split_and!; [done..|]. intros (b & Hb & Hn).
    by apply (Hno b).
Qed.

End UnmaskedAttrs.

(** C2, as amended.  In the diamond [D(B, C)], [B(A)], [C(A)],
    [nested_bases] returns for [D] the five chains [(D)], [(B, D)],
    [(A, B, D)], [(C, D)] and [(A, C, D)], of which those that start at [A]
    are [(A, B, D)] and [(A, C, D)]; a visible member of [A] whose name is
    also that of a member of [B], and of no member of [C] or [D], is in
    the unmasked members of [(A, C, D)] and not in those of [(A, B, D)].
    For any chain, the unmasked members are the visible members of its
    first class whose name is that of no member of a later class of that
    chain. *)
Theorem diamond_chains_and_unmasked_attrs
    (deref : ref → Documentable) (A B C D : ref) (fuel : nat) (o : ref) :
  resolved_bases deref D = [B; C] →
  resolved_bases deref B = [A] →
  resolved_bases deref C = [A] →
  resolved_bases deref A = [] →
  3 ≤ fuel →
  o ∈ values (contents (deref A)) →
  isVisible (deref o) = true →
  name (deref o) ∈ member_names deref B →
  name (deref o) ∉ member_names deref C →
  name (deref o) ∉ member_names deref D →
  ∃ chains,
    nested_bases deref fuel D = Return chains
    ∧ chains = [[D]; [B; D]; [A; B; D]; [C; D]; [A; C; D]]
    ∧ List.filter (λ ch, bool_decide (head ch = Some A)) chains
      = [[A; B; D]; [A; C; D]]
    ∧ (∃ l, unmasked_attrs deref [A; C; D] = Return l ∧ o ∈ l)
    ∧ (∃ l, unmasked_attrs deref [A; B; D] = Return l ∧ o ∉ l)
    ∧ (∀ b0 rest, ∃ l,
         unmasked_attrs deref (b0 :: rest) = Return l
         ∧ ∀ o', o' ∈ l ↔ o' ∈ values (contents (deref b0))
                          ∧ isVisible (deref o') = true
                          ∧ ∀ b, b ∈ rest →
                                 name (deref o') ∉ member_names deref b).
Proof.
  intros HD HB HC HA Hfuel Ho Hvis HoB HoC HoD.
  destruct fuel as [|[|[|fuel]]]; [lia..|].
  assert (HnA : ∀ f, nested_bases deref (S f) A = Return [[A]]).
  { intros f. by rewrite nested_bases_unfold, HA. }
  assert (HnB : ∀ f, nested_bases deref (S (S f)) B = Return [[B]; [A; B]]).
  { intros f. rewrite nested_bases_unfold, HB. cbn [for_loop]. by rewrite HnA. }
  assert (HnC : ∀ f, nested_bases deref (S (S f)) C = Return [[C]; [A; C]]).
  { intros f. rewrite nested_bases_unfold, HC. cbn [for_loop]. by rewrite HnA. }
  eexists. split.
  { rewrite nested_bases_unfold, HD. cbn [for_loop]. rewrite HnB.
    cbn [mbind result_bind]. rewrite HnC. reflexivity. }
  split; [done|]. split.
  { assert (A ≠ D) by (intros ->; congruence).
    assert (A ≠ B) by (intros ->; congruence).
    assert (A ≠ C) by (intros ->; congruence).
    simpl. repeat case_bool_decide; first [done | congruence]. }
  split_and!.
  - destruct (unmasked_attrs_elem_of deref A [C; D]) as (l & Hl & Hiff).
    exists l. split; [done|]. apply Hiff. split_and!; [done..|].
    intros b [->|[->|[]%elem_of_nil]%elem_of_cons]%elem_of_cons; done.
  - destruct (unmasked_attrs_elem_of deref A [B; D]) as (l & Hl & Hiff).
    exists l. split; [done|]. rewrite Hiff. intros (_ & _ & Hno).
    apply (Hno B); [left|done].
  - apply unmasked_attrs_elem_of.
Qed.

Lemma diamond_chains_and_unmasked_attrs_witness :
  ∃ chains,
    nested_bases diamond_store 3 3 = Return chains
    ∧ chains = [[3]; [1; 3]; [0; 1; 3]; [2; 3]; [0; 2; 3]]
    ∧ List.filter (λ ch, bool_decide (head ch = Some 0)) chains
      = [[0; 1; 3]; [0; 2; 3]]
    ∧ (∃ l, unmasked_attrs diamond_store [0; 2; 3] = Return l ∧ 4 ∈ l)
    ∧ (∃ l, unmasked_attrs diamond_store [0; 1; 3] = Return l ∧ 4 ∉ l).
Proof.
  destruct (diamond_chains_and_unmasked_attrs diamond_store 0 1 2 3 3 4)
    as (chains & H1 & H2 & H3 & H4 & H5 & _);
    [..|exists chains; split_and!; assumption].
  - reflexivity.
  - reflexivity.
  - reflexivity.
  - reflexivity.
  - lia.
  - vm_compute. left.
  - reflexivity.
  - vm_compute. left.
  - vm_compute. apply not_elem_of_nil.
  - vm_compute. apply not_elem_of_nil.
Defined.

(** C2 as stated fails: the chains that [nested_bases] returns for [D]
    are not just [(A, B, D)] and [(A, C, D)]. *)
Lemma diamond_chains_not_only_two :
  resolved_bases diamond_store 3 = [1; 2]
  ∧ resolved_bases diamond_store 1 = [0]
  ∧ resolved_bases diamond_store 2 = [0]
  ∧ resolved_bases diamond_store 0 = []
  ∧ nested_bases diamond_store 3 3
    = Return [[3]; [1; 3]; [0; 1; 3]; [2; 3]; [0; 2; 3]]
  ∧ nested_bases diamond_store 3 3 ≠ Return [[0; 1; 3]; [0; 2; 3]].
Proof. split_and!; [reflexivity..|]. vm_compute. discriminate. Qed.

(** ** BaseElement.__init__ *)

(** No call of the constructor raises: every path ends in [Return]. *)
Lemma BaseElement_init_never_raises (filename : string) (system : option System)
    (template_lookup : option TemplateLookup) (loader : option ITemplateLoader) :
  ∃ self, BaseElement_init filename system template_lookup loader = Return self.
Proof.
  unfold BaseElement_init. destruct loader as [l|]; [eauto|].
  destruct (negb _); [|eauto].
  destruct template_lookup as [lookup|]; [|eauto].
  destruct (renderable _); eauto.
Qed.

(** C3, on the code.  With the loader information missing in each of the
    three ways (a page class with a file name but no template lookup, one
    whose template does not provide a loader, one with an empty file name
    and no loader argument) the constructor returns normally and leaves
    [_loader] unset: no [RuntimeError] is raised. *)
Theorem BaseElement_init_misconfigured_returns :
  BaseElement_init "nav.html" None None None
    = Return (mkBaseElement None None None)
  ∧ BaseElement_init "nav.html" None (Some lookup_without_loader) None
    = Return (mkBaseElement None (Some lookup_without_loader) None)
  ∧ BaseElement_init "" None None None
    = Return (mkBaseElement None None None)
  ∧ loader (mkBaseElement None None None) = None.
Proof. split_and!; reflexivity. Qed.

(** ** assembleList *)

Section AssembleList.

Variable deref : ref → Documentable.
Variable system : System.
Variable page_url : string.

(** A name is dropped by the filter exactly when the registry knows it
    as an invisible object. *)
Lemma shown_false_iff (nm : string) :
  shown deref system nm = false
  ↔ ∃ o, allobjects system !! nm = Some o ∧ isVisible (deref o) = false.
Proof.
  unfold shown. destruct (allobjects system !! nm) as [o|].
  - split; [eauto|]. by intros (o' & [= <-] & ?).
  - split; [done|]. by intros (o' & [=] & ?).
Qed.

Lemma filter_shown_nil_iff (lst : list string) :
  List.filter (shown deref system) lst = []
  ↔ ∀ nm, nm ∈ lst →
      ∃ o, allobjects system !! nm = Some o ∧ isVisible (deref o) = false.
Proof.
  induction lst as [|nm lst IH]; simpl.
  - split; [|done]. by intros _ nm' ?%elem_of_nil.
  - destruct (shown deref system nm) eqn:E.
    + split; [done|]. intros H. destruct (H nm) as (o & Ho & Hvis); [left|].
      apply not_false_iff_true in E. destruct E. apply shown_false_iff. eauto.
    + rewrite IH. split.
      * intros H nm' [->|Hin]%elem_of_cons; [by apply shown_false_iff|auto].
      * intros H nm' Hin. apply H. by right.
Qed.

Lemma commasep_snoc (names : list string) :
  names ≠ [] →
  ∃ items, commasep system page_url names = Return items
           ∧ items ++ [Str ", "] = mjoin (item_then_comma system page_url <$> names).
Proof.
  intros Hne. unfold commasep.
  rewrite (for_loop_append (item_then_comma system page_url)). simpl.
  destruct (exists_last Hne) as (names' & nm & ->).
  rewrite fmap_app, join_app. simpl.
  change [one system page_url nm; Str ", "]
    with ([one system page_url nm] ++ [Str ", "]).
  rewrite app_assoc, del_last_snoc. eauto.
Qed.

Lemma item_then_comma_lookup (names : list string) (i : nat) (nm : string) :
  names !! i = Some nm →
  mjoin (item_then_comma system page_url <$> names) !! (2 * i) = Some (one system page_url nm)
  ∧ mjoin (item_then_comma system page_url <$> names) !! (2 * i + 1) = Some (Str ", ").
Proof.
  revert i. induction names as [|nm' names IH]; intros i Hi; [done|].
  destruct i as [|i]; simpl in Hi.
  - by injection Hi as ->.
  - replace (2 * S i) with (S (S (2 * i))) by lia.
    replace (S (S (2 * i)) + 1) with (S (S (2 * i + 1))) by lia.
    apply (IH i Hi).
Qed.

Lemma item_then_comma_length (names : list string) :
  length (mjoin (item_then_comma system page_url <$> names)) = 2 * length names.
Proof.
  induction names as [|nm names IH]; [done|].
  rewrite fmap_cons. change (mjoin (?x :: ?l)) with (x ++ mjoin l).
  rewrite length_app, IH. simpl. lia.
Qed.

(** The call returns: [del r[-1]] never sees an empty list. *)
Lemma assembleList_returns (label : string) (lst : list string) (idbase : string) :
  ∃ p, assembleList deref system label lst idbase page_url = Return p.
Proof.
  unfold assembleList. destruct (List.filter _ lst) as [|nm names] eqn:E; [eauto|].
  destruct (commasep_snoc (nm :: names)) as (items & -> & _); [done|]. simpl. eauto.
Qed.

End AssembleList.

(** C6.  When every name of the list is registered as an invisible object,
    so that nothing is left after the filter, [assembleList] returns
    [None], whatever the label: no list node is built. *)
Theorem assembleList_empty_is_None
    (deref : ref → Documentable) (system : System) (label : string)
    (lst : list string) (idbase page_url : string) :
  (∀ nm, nm ∈ lst →
     ∃ o, allobjects system !! nm = Some o ∧ isVisible (deref o) = false) →
  List.filter (shown deref system) lst = []
  ∧ assembleList deref system label lst idbase page_url = Return None.
Proof.
  intros H%filter_shown_nil_iff. split; [done|].
  unfold assembleList. by rewrite H.
Qed.

Lemma assembleList_empty_is_None_witness :
  List.filter (shown hidden_mid_store (registry hidden_mid_objs)) ["mod._Mid"] = []
  ∧ assembleList hidden_mid_store (registry hidden_mid_objs)
      "Known subclasses: " ["mod._Mid"] "moreSubclasses" "mod.Base.html"
    = Return None.
Proof.
  apply (assembleList_empty_is_None hidden_mid_store (registry hidden_mid_objs)).
  intros nm Hin. apply list_elem_of_singleton in Hin. subst nm.
  exists 1. split; reflexivity.
Defined.

(** C7.  When [n > 0] names are left after the filter, [assembleList]
    returns the label followed by [2n - 1] nodes: the item of the name
    number [i] at position [2i], a comma separator after each item but the
    last, and so the item of the last name at the end. *)
Theorem assembleList_separators
    (deref : ref → Documentable) (system : System) (label : string)
    (lst : list string) (idbase page_url : string) (names : list string) :
  names = List.filter (shown deref system) lst →
  names ≠ [] →
  ∃ items,
    assembleList deref system label lst idbase page_url
      = Return (Some (Str label :: items))
    ∧ length items = 2 * length names - 1
    ∧ (∀ i nm, names !! i = Some nm →
         items !! (2 * i) = Some (one system page_url nm))
    ∧ (∀ i, S i < length names → items !! (2 * i + 1) = Some (Str ", "))
    ∧ last items = one system page_url <$> last names.
Proof.
  intros Hnames Hne.
  destruct (commasep_snoc system page_url names Hne) as (items & Hc & Hsnoc).
  assert (Hlen : length items = 2 * length names - 1).
  { apply (f_equal length) in Hsnoc.
    rewrite length_app, item_then_comma_length in Hsnoc. simpl in Hsnoc. lia. }
  assert (Hitem : ∀ i nm, names !! i = Some nm →
            items !! (2 * i) = Some (one system page_url nm)).
  { intros i nm Hi. pose proof (lookup_lt_Some _ _ _ Hi) as Hlt.
    destruct (item_then_comma_lookup system page_url names i nm Hi) as [H0 _].
    rewrite <-Hsnoc, lookup_app_l in H0 by lia. done. }
  exists items. split_and!.
  - unfold assembleList. rewrite <-Hnames.
    destruct names as [|nm names']; [done|]. by rewrite Hc.
  - done.
  - done.
  - intros i Hi. destruct (lookup_lt_is_Some_2 names i) as [nm Hnm]; [lia|].
    destruct (item_then_comma_lookup system page_url names i nm Hnm) as [_ H1].
    rewrite <-Hsnoc, lookup_app_l in H1 by lia. done.
  - rewrite !last_lookup.
    destruct (lookup_lt_is_Some_2 names (pred (length names))) as [nm Hnm].
    { destruct names; [done|simpl; lia]. }
    rewrite Hnm. simpl. rewrite <-(Hitem _ _ Hnm). f_equal.
    destruct names; [done|simpl in *; lia].
Qed.

Lemma assembleList_separators_witness :
  ∃ items,
    assembleList xyz_store (registry xyz_objs) "Known subclasses: "
      ["x"; "y"; "z"] "moreSubclasses" "p.html"
      = Return (Some (Str "Known subclasses: " :: items))
    ∧ length items = 2 * 3 - 1
    ∧ (∀ i nm, ["x"; "y"; "z"] !! i = Some nm →
         items !! (2 * i) = Some (one (registry xyz_objs) "p.html" nm))
    ∧ (∀ i, S i < 3 → items !! (2 * i + 1) = Some (Str ", "))
    ∧ last items = one (registry xyz_objs) "p.html" <$> Some "z".
Proof.
  apply (assembleList_separators xyz_store (registry xyz_objs) "Known subclasses: "
           ["x"; "y"; "z"] "moreSubclasses" "p.html" ["x"; "y"; "z"]).
  - reflexivity.
  - discriminate.
Defined.

(** The list for [x], [y] and [z], all visible: two separators, and the
    items in the order of the names. *)
Example assembleList_xyz :
  assembleList xyz_store (registry xyz_objs) "Known subclasses: "
    ["x"; "y"; "z"] "moreSubclasses" "p.html"
  = Return (Some [Str "Known subclasses: ";
                  Tag "code" [] [taglink 0 "p.html" None]; Str ", ";
                  Tag "code" [] [taglink 1 "p.html" None]; Str ", ";
                  Tag "code" [] [taglink 2 "p.html" None]]).
Proof. reflexivity. Qed.

(** C9.  The [idbase] argument has no effect on what [assembleList]
    returns. *)
Theorem assembleList_ignores_idbase
    (deref : ref → Documentable) (system : System) (label : string)
    (lst : list string) (page_url : string) (idbase1 idbase2 : string) :
  assembleList deref system label lst idbase1 page_url
  = assembleList deref system label lst idbase2 page_url.
Proof. reflexivity. Qed.

(** ** format_decorators *)

Section FormatDecorators.

Variable deref : ref → Documentable.
Variable node2fullname : ast_expr → ref → option string.
Variable to_source : ast_expr → string.

(** The loop yields the decorators up to where it breaks, and it breaks
    at the first deprecation call, if there is one. *)
Lemma format_decorators_loop_prefix (obj : ref) (decs : list ast_expr) :
  ∃ j, j ≤ length decs
    ∧ format_decorators_loop node2fullname to_source obj decs
      = (λ dec, ("@" +:+ strip (to_source dec), br)) <$> take j decs
    ∧ (∀ k dec, k < j → decs !! k = Some dec →
         is_deprecated_call node2fullname obj dec = false)
    ∧ (∀ dec, decs !! j = Some dec →
         is_deprecated_call node2fullname obj dec = true).
Proof.
  induction decs as [|dec decs (j & Hj & Heq & Hbefore & Hat)]; simpl.
  - exists 0. split_and!; [done|done|intros; lia|done].
  - destruct (is_deprecated_call node2fullname obj dec) eqn:E.
    + exists 0. split_and!; [lia|done|intros; lia|].
      intros dec' [= <-]. done.
    + exists (S j). split_and!; [lia| |..].
      * simpl. by rewrite Heq.
      * intros [|k] dec' Hk Hdec'; simpl in Hdec'; [by injection Hdec' as <-|].
        apply (Hbefore k); [lia|done].
      * intros dec' Hdec'. by apply Hat.
Qed.

End FormatDecorators.

(** C10.  When the decorator at position [i] is a call whose function
    resolves to [twisted.python.deprecate.deprecated] or to
    [twisted.python.deprecate.deprecatedProperty], [format_decorators]
    yields the decorators of some positions [0 .. j-1] with [j ≤ i], and
    nothing else: neither the decorator at [i] nor any after it.  When no
    decorator before [i] is such a call, [j] is [i]. *)
Theorem format_decorators_stops_at_deprecated
    (deref : ref → Documentable) (node2fullname : ast_expr → ref → option string)
    (to_source : ast_expr → string) (obj : ref) (decs : list ast_expr)
    (i : nat) (func : ast_expr) (args : list ast_expr) (fn : string) :
  decorators (deref obj) = Some decs →
  decs !! i = Some (ast_Call func args) →
  node2fullname func obj = Some fn →
  fn = "twisted.python.deprecate.deprecated"
    ∨ fn = "twisted.python.deprecate.deprecatedProperty" →
  ∃ j, j ≤ i
    ∧ format_decorators deref node2fullname to_source obj
      = (λ dec, ("@" +:+ strip (to_source dec), br)) <$> take j decs
    ∧ length (format_decorators deref node2fullname to_source obj) = j
    ∧ ((∀ k dec, k < i → decs !! k = Some dec →
          is_deprecated_call node2fullname obj dec = false) → j = i).
Proof.
  intros Hdecs Hi Hfn Hname.
  destruct (format_decorators_loop_prefix node2fullname to_source obj decs)
    as (j & Hj & Heq & Hbefore & Hat).
  assert (Hdep : is_deprecated_call node2fullname obj (ast_Call func args) = true).
  { simpl. rewrite Hfn. apply bool_decide_eq_true. unfold deprecated_names.
    destruct Hname as [-> | ->]; [left|right; left]. }
  assert (j ≤ i).
  { destruct (decide (j ≤ i)) as [|Hgt]; [done|].
    rewrite (Hbefore i (ast_Call func args)) in Hdep; [done|lia|done]. }
  exists j. unfold format_decorators. rewrite Hdecs. simpl.
  split_and!; [done|done| |].
  - rewrite Heq, length_fmap, length_take. lia.
  - intros Hfirst. destruct (decide (j = i)) as [|Hne]; [done|].
    pose proof (lookup_lt_Some _ _ _ Hi) as Hlt.
    destruct (lookup_lt_is_Some_2 decs j) as [dec Hdec]; [lia|].
    specialize (Hat dec Hdec). rewrite (Hfirst j dec) in Hat; [done|lia|done].
Qed.

Lemma format_decorators_stops_at_deprecated_witness :
  ∃ j, j ≤ 1
    ∧ format_decorators decorated_store example_node2fullname example_to_source 0
      = (λ dec, ("@" +:+ strip (example_to_source dec), br))
          <$> take j [ast_Name "first";
                      ast_Call (ast_Name "deprecated") [ast_Constant "Version(...)"];
                      ast_Name "last"]
    ∧ length (format_decorators decorated_store example_node2fullname
                example_to_source 0) = j
    ∧ ((∀ k dec, k < 1 →
          [ast_Name "first";
           ast_Call (ast_Name "deprecated") [ast_Constant "Version(...)"];
           ast_Name "last"] !! k = Some dec →
          is_deprecated_call example_node2fullname 0 dec = false) → j = 1).
Proof.
  apply (format_decorators_stops_at_deprecated decorated_store example_node2fullname
           example_to_source 0 _ 1 (ast_Name "deprecated")
           [ast_Constant "Version(...)"] "twisted.python.deprecate.deprecated").
  - reflexivity.
  - reflexivity.
  - reflexivity.
  - left. reflexivity.
Defined.

Example format_decorators_example :
  format_decorators decorated_store example_node2fullname example_to_source 0
  = [("@first", br)].
Proof. reflexivity. Qed.

(** ** The package page *)

Lemma dict_get_values {V : Type} (d : dict V) (k : string) (v : V) :
  dict_get d k = Some v → v ∈ values d.
Proof.
  unfold values. induction d as [|[k' v'] d IH]; simpl; [done|].
  destruct (decide (k' = k)).
  - intros [= ->]. left.
  - intros H. right. by apply IH.
Qed.

Section PackagePage.

Variable deref : ref → Documentable.

Lemma PackagePage_children_elem_of (pkg o : ref) :
  o ∈ PackagePage_children deref pkg
  ↔ o ∈ values (contents (deref pkg))
    ∧ name (deref o) ≠ "__init__"
    ∧ isVisible (deref o) = true.
Proof.
  unfold PackagePage_children.
  rewrite sorted_elem_of, list_elem_of_In, filter_In, <-list_elem_of_In.
  rewrite andb_true_iff, negb_true_iff, String.eqb_neq. tauto.
Qed.

Lemma PackagePage_packageInitTable_members (pkg init : ref) :
  dict_get (contents (deref pkg)) "__init__" = Some init →
  ∃ members,
    (∀ o, o ∈ members
          ↔ o ∈ values (contents (deref init)) ∧ isVisible (deref o) = true)
    ∧ PackagePage_packageInitTable deref pkg
      = Return match members with
               | [] => []
               | _ => [from_init_label; ChildTable init members]
               end.
Proof.
  intros Hinit. unfold PackagePage_packageInitTable, dict_index. rewrite Hinit. simpl.
  exists (sorted key_le (package_key deref)
            (List.filter (λ o, isVisible (deref o)) (values (contents (deref init))))).
  split; [|by destruct (sorted _ _ _)].
  intros o. by rewrite sorted_elem_of, list_elem_of_In, filter_In, <-list_elem_of_In.
Qed.

End PackagePage.

(** C8.  The children of a package page are visible members of the
    package whose name is not [__init__], and its main table shows those
    children and nothing else.  When the package has an [__init__] module,
    the init table is empty or is the explanatory label followed by a
    table of the visible members of [__init__]; where the package and
    [__init__] own their members (the parent links form a tree), no
    member shown in the init table is among the children. *)
Theorem package_children_exclude_init (deref : ref → Documentable) (pkg : ref) :
  (∀ o, o ∈ PackagePage_children deref pkg →
        o ∈ values (contents (deref pkg))
        ∧ name (deref o) ≠ "__init__"
        ∧ isVisible (deref o) = true)
  ∧ (PackagePage_mainTable deref pkg = Seq []
     ∨ PackagePage_mainTable deref pkg
       = ChildTable pkg (PackagePage_children deref pkg))
  ∧ ∀ init,
      dict_get (contents (deref pkg)) "__init__" = Some init →
      ∃ members,
        (∀ o, o ∈ members
              ↔ o ∈ values (contents (deref init)) ∧ isVisible (deref o) = true)
        ∧ PackagePage_packageInitTable deref pkg
          = Return match members with
                   | [] => []
                   | _ => [from_init_label; ChildTable init members]
                   end
        ∧ ((∀ o, o ∈ values (contents (deref pkg)) → parent (deref o) = Some pkg) →
           (∀ o, o ∈ values (contents (deref init)) → parent (deref o) = Some init) →
           parent (deref pkg) ≠ Some pkg →
           ∀ o, o ∈ members → o ∉ PackagePage_children deref pkg).
Proof.
  split_and!.
  - intros o. by rewrite PackagePage_children_elem_of.
  - unfold PackagePage_mainTable, mainTable.
    destruct (PackagePage_children deref pkg); [by left|by right].
  - intros init Hinit.
    destruct (PackagePage_packageInitTable_members deref pkg init Hinit)
      as (members & Hmem & Htable).
    exists members. split_and!; [done..|].
    intros Hpkg Hown Hacyclic o [Ho _]%Hmem [Ho' _]%PackagePage_children_elem_of.
    apply Hown in Ho. apply Hpkg in Ho'.
    assert (init = pkg) as -> by congruence.
    apply Hacyclic, Hpkg. by apply (dict_get_values _ "__init__").
Qed.

Lemma package_children_exclude_init_witness :
  PackagePage_children package_store 0 = [2]
  ∧ ∃ members,
      PackagePage_packageInitTable package_store 0
        = Return match members with
                 | [] => []
                 | _ => [from_init_label; ChildTable 1 members]
                 end
      ∧ ∀ o, o ∈ members → o ∉ PackagePage_children package_store 0.
Proof.
  split; [reflexivity|].
  destruct (package_children_exclude_init package_store 0) as (_ & _ & H).
  destruct (H 1) as (members & _ & Htable & Hdisjoint); [reflexivity|].
  exists members. split; [exact Htable|].
  apply Hdisjoint.
  - intros o Ho. vm_compute in Ho.
    apply elem_of_cons in Ho as [->|Ho]; [reflexivity|].
    apply list_elem_of_singleton in Ho as ->. reflexivity.
  - intros o Ho. vm_compute in Ho.
    apply list_elem_of_singleton in Ho as ->. reflexivity.
  - vm_compute. discriminate.
Defined.

(** ** overriding_subclasses *)

Section OverridingSubclasses.

Variable deref : ref → Documentable.

(** What the loop over the subclasses collects, given what the
    recursive calls return. *)
Lemma overriding_loop_elem_of (walk : ref → result (list ref))
    (subs : list ref) (r0 found : list ref) (d : ref) :
  for_loop subs
    (λ sc r, if isVisible (deref sc)
             then ys ← walk sc; Return (r ++ ys)
             else Return r) r0 = Return found →
  d ∈ found
  ↔ d ∈ r0 ∨ ∃ sc ys, sc ∈ subs ∧ isVisible (deref sc) = true
                      ∧ walk sc = Return ys ∧ d ∈ ys.
Proof.
  revert r0. induction subs as [|sc subs IH]; intros r0; simpl.
  - intros [= <-]. split; [by left|].
    intros [?|(sc & ys & []%elem_of_nil & _)]; done.
  - destruct (isVisible (deref sc)) eqn:Hvis; simpl.
    + destruct (walk sc) as [ys|e] eqn:Hwalk; simpl; [|done].
      intros Hloop. rewrite (IH _ Hloop), elem_of_app. split.
      * intros [[?|?]|(sc' & ys' & Hin & ?)].
        -- by left.
        -- right. exists sc, ys. split_and!; [left|done..].
        -- right. exists sc', ys'. split; [by right|done].
      * intros [?|(sc' & ys' & [->|Hin]%elem_of_cons & Hvis' & Hwalk' & Hd)].
        -- by left; left.
        -- left; right. congruence.
        -- right. exists sc', ys'. done.
    + intros Hloop. rewrite (IH _ Hloop). split.
      * intros [?|(sc' & ys' & Hin & ?)]; [by left|].
        right. exists sc', ys'. split; [by right|done].
      * intros [?|(sc' & ys' & [->|Hin]%elem_of_cons & Hvis' & Hwalk' & Hd)].
        -- by left.
        -- congruence.
        -- right. exists sc', ys'. done.
Qed.

Lemma overriding_loop_returns (walk : ref → result (list ref))
    (subs : list ref) (r0 : list ref) :
  (∀ sc, sc ∈ subs → ∃ ys, walk sc = Return ys) →
  ∃ found,
    for_loop subs
      (λ sc r, if isVisible (deref sc)
               then ys ← walk sc; Return (r ++ ys)
               else Return r) r0 = Return found.
Proof.
  revert r0. induction subs as [|sc subs IH]; intros r0 Hwalk; simpl; [eauto|].
  destruct (isVisible (deref sc)); simpl.
  - destruct (Hwalk sc) as [ys ->]; [left|]. simpl.
    apply IH. intros sc' Hin. apply Hwalk. by right.
  - apply IH. intros sc' Hin. apply Hwalk. by right.
Qed.

(** What a call yields: the class itself when it is not the first call
    and the class has the member, and otherwise the first overriders
    below the class. *)
Lemma overriding_subclasses_elem_of (fuel : nat) (c : ref) (nm : string)
    (firstcall : bool) (found : list ref) (d : ref) :
  overriding_subclasses deref fuel c nm firstcall = Return found →
  d ∈ found
  ↔ if negb firstcall && dict_mem (contents (deref c)) nm
    then d = c
    else first_overrider deref nm c d.
Proof.
  revert c firstcall found. induction fuel as [|fuel IH]; intros c firstcall found;
    simpl; [done|].
  destruct (negb firstcall && dict_mem (contents (deref c)) nm).
  - intros [= <-]. apply list_elem_of_singleton.
  - intros Hloop.
    rewrite (overriding_loop_elem_of _ _ _ _ d Hloop). split.
    + intros [[]%elem_of_nil|(sc & ys & Hin & Hvis & Hwalk & Hd)].
      apply (IH sc false ys) in Hwalk. apply Hwalk in Hd. simpl in Hd.
      destruct (dict_mem (contents (deref sc)) nm) eqn:Hmem.
      * subst d. by apply fo_direct.
      * by apply (fo_deeper deref nm c sc d).
    + intros Hfo. right. inversion Hfo as [c' sc Hin Hvis Hmem|c' sc d' Hin Hvis Hmem Hbelow]; subst.
      * destruct fuel as [|fuel']; [|].
        -- exfalso. clear -Hloop Hin Hvis.
           revert Hloop. generalize (@nil ref).
           induction (subclasses (deref c)) as [|sc' subs IHs]; intros r0; simpl;
             [by apply elem_of_nil in Hin|].
           apply elem_of_cons in Hin as [<-|Hin].
           ++ by rewrite Hvis.
           ++ destruct (isVisible (deref sc')); simpl; [done|]. by apply IHs.
        -- exists d, [d]. split_and!; [done..| |left].
           simpl. by rewrite Hmem.
      * destruct (overriding_subclasses deref fuel sc nm false) as [ys|e] eqn:Hwalk.
        -- exists sc, ys. split_and!; [done..|].
           apply (IH sc false ys Hwalk). simpl. by rewrite Hmem.
        -- exfalso. clear -Hloop Hin Hvis Hwalk.
           revert Hloop. generalize (@nil ref).
           induction (subclasses (deref c)) as [|sc' subs IHs]; intros r0; simpl;
             [by apply elem_of_nil in Hin|].
           apply elem_of_cons in Hin as [<-|Hin].
           ++ by rewrite Hvis, Hwalk.
           ++ destruct (isVisible (deref sc'));
                [destruct (overriding_subclasses deref fuel sc' nm false)|];
                simpl; [by apply IHs|done|by apply IHs].
Qed.

Variable rank : ref → nat.
Hypothesis subclass_rank : ∀ c sc, sc ∈ subclasses (deref c) → rank sc < rank c.

(** On a subclass graph without cycles the walk returns, given fuel
    above the rank of the class it starts from. *)
Lemma overriding_subclasses_returns (fuel : nat) (c : ref) (nm : string)
    (firstcall : bool) :
  rank c < fuel →
  ∃ found, overriding_subclasses deref fuel c nm firstcall = Return found.
Proof.
  revert c firstcall. induction fuel as [|fuel IH]; intros c firstcall Hrank;
    [lia|]. simpl.
  destruct (negb firstcall && dict_mem (contents (deref c)) nm); [eauto|].
  apply overriding_loop_returns. intros sc Hin. apply IH.
  pose proof (subclass_rank c sc Hin). lia.
Qed.

End OverridingSubclasses.

(** ** ClassPage.functionExtras *)

Section FunctionExtras.

Variable deref : ref → Documentable.
Variable allbases : ref → list ref.
Variable system : System.

(** The loop over the bases stops at the first base that has the
    member, and annotates with that base's member. *)
Lemma overrides_annotation_first (bases : list ref) (nm url : string) :
  ∃ ov,
    overrides_annotation deref bases nm url = Return ov
    ∧ match list_find (λ b, dict_mem (contents (deref b)) nm = true) bases with
      | Some (_, b) =>
          ∃ overridden,
            dict_get (contents (deref b)) nm = Some overridden
            ∧ ov = [Tag "div" [("class", "interfaceinfo")]
                      [Str "overrides ";
                       Tag "code" [] [taglink overridden url None]]]
      | None => ov = []
      end.
Proof.
  induction bases as [|b bases (ov & Hov & Hfind)]; simpl; [eauto|].
  destruct (decide (dict_mem (contents (deref b)) nm = true)) as [Hmem|Hmem].
  - rewrite Hmem. simpl.
    destruct (dict_index_mem _ _ Hmem) as (overridden & Hget & ->). simpl. eauto.
  - apply not_true_is_false in Hmem. rewrite Hmem. simpl.
    exists ov. split; [done|].
    destruct (list_find _ bases) as [[i b']|]; done.
Qed.

Variable rank : ref → nat.
Hypothesis subclass_rank : ∀ c sc, sc ∈ subclasses (deref c) → rank sc < rank c.

(** The call returns, and this is what it returns. *)
Lemma functionExtras_returns (fuel : nat) (self : ClassPage) (data : ref) :
  rank (ob self) < fuel →
  ∃ ov found,
    overrides_annotation deref (allbases (ob self)) (name (deref data))
      (page_url deref (ob self)) = Return ov
    ∧ overriding_subclasses deref fuel (ob self) (name (deref data)) true
      = Return found
    ∧ functionExtras deref allbases fuel system self data
      = Return
          match sorted String.leb (λ o, lower (fullName (deref o))) found with
          | [] => (mkExtras ov None, self)
          | ocs =>
              let idbase := "overridenIn" +:+ pretty (S (overridenInCount self)) in
              (mkExtras
                 (ov ++ match assembleList deref system "overridden in "
                                ((λ o, fullName (deref o)) <$> ocs) idbase
                                (page_url deref (ob self)) with
                        | Return (Some l) =>
                            [Tag "div" [("class", "interfaceinfo")] [Seq l]]
                        | _ => []
                        end)
                 (Some idbase),
               mkClassPage (ob self) (baselists self) (S (overridenInCount self)))
          end.
Proof.
  intros Hrank.
  destruct (overrides_annotation_first (allbases (ob self)) (name (deref data))
              (page_url deref (ob self))) as (ov & Hov & _).
  destruct (overriding_subclasses_returns deref rank subclass_rank fuel (ob self)
              (name (deref data)) true Hrank) as (found & Hfound).
  exists ov, found. split_and!; [done..|].
  unfold functionExtras. rewrite Hov, Hfound. cbn [mbind result_bind].
  destruct (sorted _ _ found) as [|o ocs]; [done|].
  cbn [overridenInCount ob baselists]. rewrite Nat.add_1_r.
  destruct (assembleList_returns deref system (page_url deref (ob self))
              "overridden in " ((λ o, fullName (deref o)) <$> o :: ocs)
              ("overridenIn" +:+ pretty (S (overridenInCount self)))) as (p & Hp).
  rewrite Hp. cbn [mbind result_bind]. destruct p; [done|].
  by rewrite app_nil_r.
Qed.

(** One call either assigns no id base and leaves the counter, or
    assigns the id base of the next counter value. *)
Lemma functionExtras_step (fuel : nat) (self : ClassPage) (data : ref) :
  rank (ob self) < fuel →
  ∃ extras self',
    functionExtras deref allbases fuel system self data = Return (extras, self')
    ∧ ob self' = ob self
    ∧ ((extras_idbase extras = None
        ∧ overridenInCount self' = overridenInCount self
        ∧ ∀ d, ¬ first_overrider deref (name (deref data)) (ob self) d)
       ∨ (extras_idbase extras
            = Some ("overridenIn" +:+ pretty (S (overridenInCount self)))
          ∧ overridenInCount self' = S (overridenInCount self)
          ∧ ∃ d, first_overrider deref (name (deref data)) (ob self) d)).
Proof.
  intros Hrank.
  destruct (functionExtras_returns fuel self data Hrank)
    as (ov & found & _ & Hfound & ->).
  pose proof (λ d, overriding_subclasses_elem_of deref fuel (ob self)
                     (name (deref data)) true found d Hfound) as Hiff.
  simpl in Hiff.
  destruct (sorted _ _ found) as [|o ocs] eqn:Hsorted.
  - eexists _, _. split; [done|]. split; [done|]. left. split_and!; [done..|].
    apply sorted_nil_iff in Hsorted as ->.
    intros d Hd%Hiff. by apply elem_of_nil in Hd.
  - eexists _, _. split; [done|]. split; [done|]. right. split_and!; [done..|].
    exists o. apply Hiff.
    apply (sorted_elem_of String.leb (λ o, lower (fullName (deref o)))).
    rewrite Hsorted. left.
Qed.

(** The loop of [childlist], from any counter value. *)
Lemma childlist_loop (fuel : nat) (class : ref) (ms : list ref)
    (r : list Child) (self : ClassPage) :
  rank class < fuel →
  ob self = class →
  ∃ new self',
    for_loop ms
      (λ c '(r, self),
         '(extras, self) ← functionExtras deref allbases fuel system self c;
         if is_Function (deref c)
         then Return (r ++ [FunctionChild c extras], self)
         else Return (r ++ [AttributeChild c extras], self))
      (r, self) = Return (r ++ new, self')
    ∧ ob self' = class
    ∧ length new = length ms
    ∧ (∀ i ch c, new !! i = Some ch → ms !! i = Some c →
         extras_idbase (child_extras ch) = None
         ↔ ∀ d, ¬ first_overrider deref (name (deref c)) class d)
    ∧ ∃ k, overridenInCount self' = overridenInCount self + k
           ∧ omap (λ ch, extras_idbase (child_extras ch)) new
             = (λ n, "overridenIn" +:+ pretty n)
                 <$> seq (S (overridenInCount self)) k.
Proof.
  intros Hrank. revert r self.
  induction ms as [|c ms IH]; intros r self Hob.
  - exists [], self. rewrite app_nil_r. split_and!; [done..|].
    exists 0. split; [lia|done].
  - cbn [for_loop].
    destruct (functionExtras_step fuel self c) as (extras & self1 & -> & Hob1 & Hstep);
      [by rewrite Hob|].
    cbn [mbind result_bind].
    set (ch := if is_Function (deref c)
               then FunctionChild c extras else AttributeChild c extras).
    assert (Hch : child_extras ch = extras) by (unfold ch; by destruct (is_Function _)).
    assert (Hbody : (if is_Function (deref c)
                     then Return (r ++ [FunctionChild c extras], self1)
                     else Return (r ++ [AttributeChild c extras], self1))
                    = Return (r ++ [ch], self1)).
    { unfold ch. by destruct (is_Function _). }
    rewrite Hbody. cbn [mbind result_bind].
    destruct (IH (r ++ [ch]) self1) as (new & self' & -> & Hob' & Hlen & Hnone & k & Hk & Hids);
      [congruence|].
    exists (ch :: new), self'. rewrite <-app_assoc. split_and!; [done|done|simpl; lia| |].
    + intros [|i] ch' c' Hch' Hc'; simpl in Hch', Hc'.
      * injection Hch' as <-. injection Hc' as <-. rewrite Hch, <-Hob.
        destruct Hstep as [(-> & _ & Hno)|(-> & _ & d & Hd)]; split; try done.
        intros Hno. by destruct (Hno d).
      * by apply (Hnone i).
    + destruct Hstep as [(Hid & Hcount & _)|(Hid & Hcount & _)].
      * exists k. split; [lia|].
        cbn [omap list_omap]. by rewrite Hch, Hid, Hids, Hcount.
      * exists (S k). split; [lia|].
        cbn [omap list_omap seq fmap list_fmap]. by rewrite Hch, Hid, Hids, Hcount.
Qed.

End FunctionExtras.

Lemma ClassPage_init_fresh (deref : ref → Documentable) (fuel : nat)
    (class : ref) (page : ClassPage) :
  ClassPage_init deref fuel class = Return page →
  ob page = class ∧ overridenInCount page = 0.
Proof.
  unfold ClassPage_init.
  destruct (nested_bases deref fuel class) as [chains|e]; simpl; [|done].
  destruct (for_loop chains _ []) as [bl|e]; simpl; [|done].
  by intros [= <-].
Qed.

(** C4, as amended.  A class page is constructed with its counter at 0.
    On a subclass graph without cycles, building the child list of a
    freshly constructed page of any class returns one child per member,
    and the members that have an overriding subclass are, in the order in
    which they are met, given the id bases ["overridenIn1"],
    ["overridenIn2"], ... (with the spelling of the code), up to the final
    value of the page's counter; the members that have none are given no
    id base.  The id base is handed to [assembleList] and to nothing
    else. *)
Theorem overridenIn_ids_in_encounter_order
    (deref : ref → Documentable) (allbases : ref → list ref) (system : System)
    (rank : ref → nat) (fuel : nat) (class : ref)
    (bl : list (chain * list ref)) :
  (∀ c sc, sc ∈ subclasses (deref c) → rank sc < rank c) →
  rank class < fuel →
  (∀ fuel' page, ClassPage_init deref fuel' class = Return page →
                 ob page = class ∧ overridenInCount page = 0)
  ∧ ∃ children page',
      childlist deref allbases fuel system (mkClassPage class bl 0)
        = Return (children, page')
      ∧ length children = length (methods deref class)
      ∧ (∀ i ch c, children !! i = Some ch → methods deref class !! i = Some c →
           extras_idbase (child_extras ch) = None
           ↔ ∀ d, ¬ first_overrider deref (name (deref c)) class d)
      ∧ omap (λ ch, extras_idbase (child_extras ch)) children
        = (λ n, "overridenIn" +:+ pretty n) <$> seq 1 (overridenInCount page').
Proof.
  intros Hacyclic Hrank. split; [intros fuel' page; apply ClassPage_init_fresh|].
  destruct (childlist_loop deref allbases system rank Hacyclic fuel class
              (methods deref class) [] (mkClassPage class bl 0) Hrank eq_refl)
    as (new & page' & Hloop & _ & Hlen & Hnone & k & Hk & Hids).
  exists new, page'. split_and!; [done..|].
  simpl in Hk, Hids. by rewrite Hk.
Qed.

Lemma overridenIn_ids_in_encounter_order_witness :
  ∃ children page',
    childlist override_store override_allbases 2 (registry override_objs)
      (mkClassPage 0 [] 0) = Return (children, page')
    ∧ length children = length (methods override_store 0)
    ∧ omap (λ ch, extras_idbase (child_extras ch)) children
      = (λ n, "overridenIn" +:+ pretty n) <$> seq 1 (overridenInCount page').
Proof.
  destruct (overridenIn_ids_in_encounter_order override_store override_allbases
              (registry override_objs) (λ c, match c with 0 => 1 | _ => 0 end)
              2 0 [])
    as (_ & children & page' & Hlist & Hlen & _ & Hids).
  - intros c sc Hin.
    destruct c as [|[|[|[|c]]]]; vm_compute in Hin;
      try (by apply elem_of_nil in Hin).
    apply list_elem_of_singleton in Hin as ->. simpl. lia.
  - simpl. lia.
  - exists children, page'. split_and!; [exact Hlist|exact Hlen|exact Hids].
Defined.

(** C4 as stated fails on the spelling of the id base: the member [m] of
    [Base], overridden in [Derived], is given ["overridenIn1"], which is
    not ["overriddenIn"] followed by a counter value. *)
Lemma overridenIn_id_is_not_overriddenIn :
  ∃ children page',
    childlist override_store override_allbases 2 (registry override_objs)
      (mkClassPage 0 [] 0) = Return (children, page')
    ∧ (λ ch, extras_idbase (child_extras ch)) <$> children = [Some "overridenIn1"]
    ∧ ∀ n : nat, Some ("overriddenIn" +:+ pretty n)
                 ∉ (λ ch, extras_idbase (child_extras ch)) <$> children.
Proof.
  eexists _, _. split; [vm_compute; reflexivity|]. split; [reflexivity|].
  intros n Hin. simpl in Hin. apply list_elem_of_singleton in Hin. discriminate.
Qed.

(** C5, as amended.  On a subclass graph without cycles [functionExtras]
    returns for a member named [nm] of the page's class:
    - first, when some class yielded by [allbases(include_self=False)] has
      a member [nm], one "overrides" annotation linking to that member of
      the first such class in the order in which [allbases] yields them,
      and no such annotation otherwise;
    - then, when the walk down the subclasses finds overriders, one
      "overridden in" annotation holding what [assembleList] makes of their
      full names.  The walk finds the visible subclasses that have [nm] and
      are reached through visible subclasses that do not have it: it does
      not go below a subclass that has [nm], nor below an invisible one. *)
Theorem functionExtras_annotations
    (deref : ref → Documentable) (allbases : ref → list ref) (system : System)
    (rank : ref → nat) (fuel : nat) (self : ClassPage) (data : ref) :
  (∀ c sc, sc ∈ subclasses (deref c) → rank sc < rank c) →
  rank (ob self) < fuel →
  ∃ extras self' ov names,
    functionExtras deref allbases fuel system self data = Return (extras, self')
    ∧ match list_find (λ b, dict_mem (contents (deref b)) (name (deref data)) = true)
              (allbases (ob self)) with
      | Some (_, b) =>
          ∃ overridden,
            dict_get (contents (deref b)) (name (deref data)) = Some overridden
            ∧ ov = [Tag "div" [("class", "interfaceinfo")]
                      [Str "overrides ";
                       Tag "code" []
                         [taglink overridden (page_url deref (ob self)) None]]]
      | None => ov = []
      end
    ∧ (∀ n, n ∈ names
            ↔ ∃ d, first_overrider deref (name (deref data)) (ob self) d
                   ∧ fullName (deref d) = n)
    ∧ extras_nodes extras
      = ov ++ match names with
              | [] => []
              | _ =>
                  match assembleList deref system "overridden in " names ""
                          (page_url deref (ob self)) with
                  | Return (Some l) =>
                      [Tag "div" [("class", "interfaceinfo")] [Seq l]]
                  | _ => []
                  end
              end.
Proof.
  intros Hacyclic Hrank.
  destruct (functionExtras_returns deref allbases system rank Hacyclic fuel self data
              Hrank) as (ov & found & Hov & Hfound & ->).
  destruct (overrides_annotation_first deref (allbases (ob self)) (name (deref data))
              (page_url deref (ob self))) as (ov' & Hov' & Hfirst).
  assert (ov' = ov) as -> by congruence.
  pose proof (λ d, overriding_subclasses_elem_of deref fuel (ob self)
                     (name (deref data)) true found d Hfound) as Hiff.
  simpl in Hiff.
  set (ocs := sorted String.leb (λ o, lower (fullName (deref o))) found).
  assert (Hnames : ∀ n, n ∈ (λ o, fullName (deref o)) <$> ocs
                        ↔ ∃ d, first_overrider deref (name (deref data)) (ob self) d
                               ∧ fullName (deref d) = n).
  { intros n. rewrite list_elem_of_fmap. unfold ocs. split.
    - intros (d & -> & Hd). exists d. split; [|done].
      by apply Hiff, (sorted_elem_of String.leb (λ o, lower (fullName (deref o)))).
    - intros (d & Hd & <-). exists d. split; [done|].
      by apply sorted_elem_of, Hiff. }
  destruct ocs as [|o ocs'] eqn:Hocs.
  - eexists _, _, ov, []. split_and!; [done|done|exact Hnames|].
    by rewrite app_nil_r.
  - eexists _, _, ov, _. split_and!; [done|done|exact Hnames|]. done.
Qed.

Lemma functionExtras_annotations_witness :
  ∃ extras self' ov names,
    functionExtras override_store override_allbases 2 (registry override_objs)
      (mkClassPage 0 [] 0) 2 = Return (extras, self')
    ∧ ov = []
    ∧ (∀ n, n ∈ names
            ↔ ∃ d, first_overrider override_store "m" 0 d
                   ∧ fullName (override_store d) = n)
    ∧ extras_nodes extras
      = ov ++ match names with
              | [] => []
              | _ =>
                  match assembleList override_store (registry override_objs)
                          "overridden in " names "" "mod.Base.html" with
                  | Return (Some l) =>
                      [Tag "div" [("class", "interfaceinfo")] [Seq l]]
                  | _ => []
                  end
              end.
Proof.
  destruct (functionExtras_annotations override_store override_allbases
              (registry override_objs) (λ c, match c with 0 => 1 | _ => 0 end)
              2 (mkClassPage 0 [] 0) 2)
    as (extras & self' & ov & names & Hret & Hov & Hnames & Hnodes).
  - intros c sc Hin.
    destruct c as [|[|[|[|c]]]]; vm_compute in Hin;
      try (by apply elem_of_nil in Hin).
    apply list_elem_of_singleton in Hin as ->. simpl. lia.
  - simpl. lia.
  - exists extras, self', ov, names.
    split_and!; [exact Hret|exact Hov|exact Hnames|exact Hnodes].
Defined.

(** The end-to-end example: the page of [Base] shows "overridden in
    Derived" for [m], and the page of [Derived] shows "overrides Base.m". *)
Example functionExtras_Base_m :
  functionExtras override_store override_allbases 2 (registry override_objs)
    (mkClassPage 0 [] 0) 2
  = Return (mkExtras
              [Tag "div" [("class", "interfaceinfo")]
                 [Seq [Str "overridden in ";
                       Tag "code" [] [taglink 1 "mod.Base.html" None]]]]
              (Some "overridenIn1"),
            mkClassPage 0 [] 1).
Proof. reflexivity. Qed.

Example functionExtras_Derived_m :
  functionExtras override_store override_allbases 2 (registry override_objs)
    (mkClassPage 1 [] 0) 3
  = Return (mkExtras
              [Tag "div" [("class", "interfaceinfo")]
                 [Str "overrides ";
                  Tag "code" [] [taglink 2 "mod.Derived.html" None]]]
              None,
            mkClassPage 1 [] 0).
Proof. reflexivity. Qed.

(** C5 as stated fails below an invisible class: [Leaf] is a visible
    descendant of [Base] and defines [m], yet the member [m] of [Base]
    gets no "overridden in" annotation, because the walk does not go
    through the invisible [_Mid]. *)
Lemma overridden_in_misses_descendant_below_invisible_class :
  descendant hidden_mid_store 0 2
  ∧ isVisible (hidden_mid_store 2) = true
  ∧ dict_mem (contents (hidden_mid_store 2)) "m" = true
  ∧ name (hidden_mid_store 3) = "m"
  ∧ functionExtras hidden_mid_store hidden_mid_allbases 3 (registry hidden_mid_objs)
      (mkClassPage 0 [] 0) 3
    = Return (mkExtras [] None, mkClassPage 0 [] 0).
Proof.
  split_and!; [|reflexivity..].
  apply (desc_below hidden_mid_store 0 1 2); [left|].
  apply desc_child. left.
Qed.

(** * Further properties of the pages *)

(** ** Loops that collect, and sorting *)

Lemma for_loop_collect {A B C : Type} (walk : A → result (list B))
    (h : list B → list C) (xs : list A) (r0 out : list C) :
  for_loop xs (λ x r, ys ← walk x; Return (r ++ h ys)) r0 = Return out →
  ∃ yss, Forall2 (λ x ys, walk x = Return ys) xs yss
         ∧ out = r0 ++ mjoin (h <$> yss).
Proof.
  revert r0. induction xs as [|x xs IH]; intros r0; simpl.
  - intros [= <-]. exists []. split; [constructor|]. by rewrite app_nil_r.
  - destruct (walk x) as [ys|e] eqn:Hx; simpl; [|done].
    intros (yss & Hall & ->)%IH. exists (ys :: yss). split; [by constructor|].
    simpl. by rewrite <-app_assoc.
Qed.

Lemma for_loop_collect_returns {A B C : Type} (walk : A → result (list B))
    (h : list B → list C) (xs : list A) (r0 : list C) :
  (∀ x, x ∈ xs → ∃ ys, walk x = Return ys) →
  ∃ out, for_loop xs (λ x r, ys ← walk x; Return (r ++ h ys)) r0 = Return out.
Proof.
  revert r0. induction xs as [|x xs IH]; intros r0 Hwalk; simpl; [eauto|].
  destruct (Hwalk x) as [ys ->]; [left|]. simpl.
  apply IH. intros x' Hin. apply Hwalk. by right.
Qed.

Section Sorting.

Context {A K : Type} (le : K → K → bool) (key : A → K).
Hypothesis le_total : ∀ k1 k2, le k1 k2 = true ∨ le k2 k1 = true.

Lemma insert_sorted_Sorted (x : A) (l : list A) :
  Sorted (λ a b, le (key a) (key b) = true) l →
  Sorted (λ a b, le (key a) (key b) = true)
    (insert_sorted (λ a b, le (key a) (key b)) x l).
Proof.
  induction l as [|y l IH]; intros Hl; simpl.
  - by repeat constructor.
  - destruct (le (key x) (key y)) eqn:Hxy.
    + constructor; [done|]. by constructor.
    + apply Sorted_inv in Hl as [Hl Hhd]. constructor; [by apply IH|].
      destruct l as [|z l]; simpl.
      * constructor. by destruct (le_total (key x) (key y)) as [?|?]; [congruence|].
      * destruct (le (key x) (key z)).
        -- constructor. by destruct (le_total (key x) (key y)) as [?|?]; [congruence|].
        -- constructor. by apply HdRel_inv in Hhd.
Qed.

(** In the sorted list each element is followed by one whose key is not
    smaller. *)
Lemma sorted_Sorted (l : list A) :
  Sorted (λ a b, le (key a) (key b) = true) (sorted le key l).
Proof.
  unfold sorted. induction l as [|x l IH]; simpl; [constructor|].
  by apply insert_sorted_Sorted.
Qed.

(** The sort is stable: the elements of one key keep their order. *)
Lemma sorted_stable (P : A → bool) (l : list A) :
  (∀ a b, P a = true → P b = true → le (key a) (key b) = true) →
  List.filter P (sorted le key l) = List.filter P l.
Proof.
  intros Hsame. unfold sorted.
  induction l as [|x l IH]; simpl; [done|].
  rewrite <-IH. generalize (foldr (insert_sorted (λ a b, le (key a) (key b))) [] l).
  clear IH. intros s. induction s as [|y s IHs]; simpl; [done|].
  destruct (le (key x) (key y)) eqn:Hxy; simpl; [done|].
  destruct (P y) eqn:Hy; simpl.
  - destruct (P x) eqn:Hx.
    + by rewrite (Hsame x y) in Hxy.
    + by rewrite IHs.
  - by rewrite IHs.
Qed.

End Sorting.

Lemma for_loop_collect_raise {A B C : Type} (walk : A → result (list B))
    (h : list B → list C) (xs : list A) (r0 : list C) (e : exn) :
  for_loop xs (λ x r, ys ← walk x; Return (r ++ h ys)) r0 = Raise e →
  ∃ x, x ∈ xs ∧ walk x = Raise e.
Proof.
  revert r0. induction xs as [|x xs IH]; intros r0; simpl; [done|].
  destruct (walk x) as [ys|e'] eqn:Hx; simpl.
  - intros (x' & Hin & Hx')%IH. exists x'. split; [by right|done].
  - intros [= <-]. exists x. split; [left|done].
Qed.

(** ** nested_bases on any hierarchy *)

Section NestedBasesChains.

Variable deref : ref → Documentable.

Lemma base_chain_last (b : ref) (ch : chain) :
  base_chain deref b ch → last ch = Some b.
Proof. intros [b'|b' p n _ _]; [done|]. by rewrite last_snoc. Qed.

Lemma nested_bases_base_chain (fuel : nat) (b : ref) (chains : list chain) :
  nested_bases deref fuel b = Return chains →
  head chains = Some [b] ∧ ∀ ch, ch ∈ chains ↔ base_chain deref b ch.
Proof.
  revert b chains. induction fuel as [|fuel IH]; intros b chains; [done|].
  rewrite nested_bases_unfold.
  intros (yss & Hall & ->)%(for_loop_collect (nested_bases deref fuel)
                               (fmap (λ n, n ++ [b]))).
  split; [done|]. intros ch. rewrite elem_of_app, list_elem_of_singleton. split.
  - intros [->|Hin]; [constructor|].
    apply list_elem_of_join in Hin as (ns' & Hch & Hns').
    apply list_elem_of_fmap in Hns' as (ns & -> & Hns).
    apply list_elem_of_fmap in Hch as (n & -> & Hn).
    apply list_elem_of_lookup in Hns as (i & Hi).
    destruct (Forall2_lookup_r _ _ _ _ _ Hall Hi) as (p & Hp & Hwalk).
    apply (base_chain_via deref b p n).
    + apply list_elem_of_lookup. eauto.
    + by apply (IH p ns Hwalk).
  - intros Hch. inversion Hch as [b'|b' p n Hp Hn]; subst; [by left|]. right.
    apply list_elem_of_lookup in Hp as (i & Hi).
    destruct (Forall2_lookup_l _ _ _ _ _ Hall Hi) as (ns & Hns & Hwalk).
    apply list_elem_of_join. exists ((λ n, n ++ [b]) <$> ns). split.
    + apply list_elem_of_fmap. exists n. split; [done|]. by apply (IH p ns Hwalk).
    + apply list_elem_of_fmap. exists ns. split; [done|].
      apply list_elem_of_lookup. eauto.
Qed.

(** The only exception that the walk raises is that of the recursion
    limit. *)
Lemma nested_bases_only_RecursionError (fuel : nat) (b : ref) (e : exn) :
  nested_bases deref fuel b = Raise e → e = RecursionError.
Proof.
  revert b. induction fuel as [|fuel IH]; intros b; [by intros [= <-]|].
  rewrite nested_bases_unfold.
  intros (p & _ & Hp)%(for_loop_collect_raise (nested_bases deref fuel)
                          (fmap (λ n, n ++ [b]))).
  by apply (IH p).
Qed.

(** Without a cycle of bases the walk returns. *)
Lemma nested_bases_returns_acyclic (rank : ref → nat) (fuel : nat) (b : ref) :
  (∀ c p, p ∈ resolved_bases deref c → rank p < rank c) →
  rank b < fuel →
  ∃ chains, nested_bases deref fuel b = Return chains.
Proof.
  intros Hrank. revert b. induction fuel as [|fuel IH]; intros b Hb; [lia|].
  rewrite nested_bases_unfold.
  apply (for_loop_collect_returns (nested_bases deref fuel) (fmap (λ n, n ++ [b]))).
  intros p Hp. apply IH. pose proof (Hrank b p Hp). lia.
Qed.

End NestedBasesChains.

(** X1.  Whatever the hierarchy, when [nested_bases] returns for [b], the
    chains it returns are exactly the paths that follow resolvable bases
    down to [b]: the first one is [b] alone, every one ends at [b], and
    each other one is a chain of a resolvable base of [b] followed by
    [b]. *)
Theorem nested_bases_chains_are_base_paths
    (deref : ref → Documentable) (fuel : nat) (b : ref) (chains : list chain) :
  nested_bases deref fuel b = Return chains →
  head chains = Some [b]
  ∧ (∀ ch, ch ∈ chains → last ch = Some b)
  ∧ (∀ ch, ch ∈ chains ↔ base_chain deref b ch).
Proof.
  intros Hret. destruct (nested_bases_base_chain deref fuel b chains Hret) as [Hhd Hiff].
  split_and!; [done| |done].
  intros ch Hch%Hiff. by apply (base_chain_last deref b).
Qed.

Lemma nested_bases_chains_are_base_paths_witness :
  head [[3]; [1; 3]; [0; 1; 3]; [2; 3]; [0; 2; 3]] = Some [3]
  ∧ (∀ ch, ch ∈ [[3]; [1; 3]; [0; 1; 3]; [2; 3]; [0; 2; 3]] → last ch = Some 3).
Proof.
  destruct (nested_bases_chains_are_base_paths diamond_store 3 3
              [[3]; [1; 3]; [0; 1; 3]; [2; 3]; [0; 2; 3]])
    as (H1 & H2 & _); [reflexivity|].
  split; [exact H1|exact H2].
Defined.

(** X2.  On a hierarchy without a cycle of bases (each resolvable base
    has a smaller rank than the class) [nested_bases] returns, given a
    recursion limit above the rank of the class. *)
Theorem nested_bases_returns_without_cycle
    (deref : ref → Documentable) (rank : ref → nat) (fuel : nat) (b : ref) :
  (∀ c p, p ∈ resolved_bases deref c → rank p < rank c) →
  rank b < fuel →
  ∃ chains, nested_bases deref fuel b = Return chains ∧ chains ≠ [].
Proof.
  intros Hrank Hfuel.
  destruct (nested_bases_returns_acyclic deref rank fuel b Hrank Hfuel)
    as (chains & Hret).
  exists chains. split; [done|].
  destruct (nested_bases_base_chain deref fuel b chains Hret) as [Hhd _].
  by destruct chains.
Qed.

Lemma nested_bases_returns_without_cycle_witness :
  ∃ chains, nested_bases diamond_store 3 3 = Return chains ∧ chains ≠ [].
Proof.
  apply (nested_bases_returns_without_cycle diamond_store
           (λ c, match c with 0 => 0 | 1 => 1 | 2 => 1 | 3 => 2 | _ => 0 end)).
  - intros c p Hp.
    destruct c as [|[|[|[|[|[|c]]]]]]; vm_compute in Hp;
      repeat (apply elem_of_cons in Hp as [->|Hp]; [simpl; lia|]);
      by apply elem_of_nil in Hp.
  - simpl. lia.
Defined.

(** X3.  On a cycle of bases the walk never returns a list: when every
    class of a set has a resolvable base in the set, [nested_bases]
    raises [RecursionError] for each class of the set, whatever the
    recursion limit. *)
Theorem nested_bases_cycle_RecursionError
    (deref : ref → Documentable) (cyclic : ref → Prop) (fuel : nat) (b : ref) :
  (∀ c, cyclic c → ∃ p, p ∈ resolved_bases deref c ∧ cyclic p) →
  cyclic b →
  nested_bases deref fuel b = Raise RecursionError.
Proof.
  intros Hcyc. revert b. induction fuel as [|fuel IH]; intros b Hb; [done|].
  destruct (nested_bases deref (S fuel) b) as [chains|e] eqn:Hret.
  - exfalso. rewrite nested_bases_unfold in Hret.
    apply (for_loop_collect (nested_bases deref fuel) (fmap (λ n, n ++ [b])))
      in Hret as (yss & Hall & _).
    destruct (Hcyc b Hb) as (p & Hp & Hcp).
    apply list_elem_of_lookup in Hp as (i & Hi).
    destruct (Forall2_lookup_l _ _ _ _ _ Hall Hi) as (ns & _ & Hwalk).
    by rewrite (IH p Hcp) in Hwalk.
  - f_equal. by apply (nested_bases_only_RecursionError deref (S fuel) b).
Qed.

Lemma nested_bases_cycle_RecursionError_witness :
  nested_bases cyclic_store 1000 0 = Raise RecursionError.
Proof.
  apply (nested_bases_cycle_RecursionError cyclic_store (λ c, c = 0 ∨ c = 1)).
  - intros c [-> | ->].
    + exists 1. split; [vm_compute; left|by right].
    + exists 0. split; [vm_compute; left|by left].
  - by left.
Defined.

Lemma result_bind_Return {A B : Type} (a : A) (f : A → result B) :
  (Return a ≫= f) = f a.
Proof. reflexivity. Qed.

(** ** unmasked_attrs on any chain *)

Lemma filter_sublist_weaker {A : Type} (P Q : A → bool) (l : list A) :
  (∀ x, Q x = true → P x = true) →
  List.filter Q l `sublist_of` List.filter P l.
Proof.
  intros HQP. induction l as [|x l IH]; simpl; [constructor|].
  destruct (Q x) eqn:HQ.
  - rewrite (HQP x HQ). by constructor.
  - destruct (P x); [by constructor|done].
Qed.

Lemma filter_sublist {A : Type} (P : A → bool) (l : list A) :
  List.filter P l `sublist_of` l.
Proof.
  induction l as [|x l IH]; simpl; [constructor|].
  destruct (P x); by constructor.
Qed.

(** X4.  [unmasked_attrs] raises [IndexError] on the empty chain.  On any
    other chain it returns members of the first class in the order of its
    [contents]; for the chain of a class alone these are all its visible
    members, whatever their names; and a chain that goes on through more
    classes can only mask more: its members are a sublist of those of the
    shorter chain. *)
Theorem unmasked_attrs_edges_and_masking
    (deref : ref → Documentable) (b0 : ref) (rest more : chain) :
  unmasked_attrs deref [] = Raise IndexError
  ∧ unmasked_attrs deref [b0]
    = Return (List.filter (λ o, isVisible (deref o)) (values (contents (deref b0))))
  ∧ ∃ l l',
      unmasked_attrs deref (b0 :: rest) = Return l
      ∧ unmasked_attrs deref (b0 :: rest ++ more) = Return l'
      ∧ l `sublist_of` values (contents (deref b0))
      ∧ l' `sublist_of` l.
Proof.
  split; [done|]. split.
  - unfold unmasked_attrs. simpl. f_equal. apply filter_ext.
    intros o. rewrite bool_decide_eq_true_2, andb_true_r; [done|].
    apply not_elem_of_empty.
  - eexists _, _. split; [reflexivity|]. split; [reflexivity|].
    split; [apply filter_sublist|].
    destruct (unmasked_attrs_elem_of deref b0 rest) as (l & Hl & Hiff).
    destruct (unmasked_attrs_elem_of deref b0 (rest ++ more)) as (l' & Hl' & Hiff').
    simpl in Hl, Hl'. injection Hl as <-. injection Hl' as <-. clear Hiff Hiff'.
    apply filter_sublist_weaker. intros o.
    rewrite !andb_true_iff, !bool_decide_eq_true, !not_elem_of_list_to_set.
    intros [Hvis Hno]. split; [done|]. intros Hin. apply Hno.
    apply list_elem_of_bind in Hin as (b & Hname & Hb).
    apply list_elem_of_bind. exists b. split; [done|].
    apply elem_of_app. by left.
Qed.

(** ** ClassPage.__init__ *)

Section ClassPageInit.

Variable deref : ref → Documentable.

(** The loop that builds [baselists] keeps, in order, the chains whose
    unmasked members are not empty. *)
Lemma baselists_loop (chains : list chain) (acc : list (chain * list ref)) :
  Forall (λ ch, ch ≠ []) chains →
  ∃ new,
    for_loop chains
      (λ baselist acc,
         attrs ← unmasked_attrs deref baselist;
         match attrs with
         | [] => Return acc
         | _ => Return (acc ++ [(baselist, attrs)])
         end) acc = Return (acc ++ new)
    ∧ new.*1 `sublist_of` chains
    ∧ ∀ ch attrs, (ch, attrs) ∈ new
                  ↔ ch ∈ chains ∧ unmasked_attrs deref ch = Return attrs ∧ attrs ≠ [].
Proof.
  revert acc. induction chains as [|ch chains IH]; intros acc Hne.
  - exists []. rewrite app_nil_r. split_and!; [done|done|]. intros ch attrs. split.
    + by intros ?%elem_of_nil.
    + by intros [?%elem_of_nil _].
  - apply Forall_cons in Hne as [Hch Hne]. cbn [for_loop].
    destruct ch as [|b0 rest]; [done|].
    destruct (unmasked_attrs_elem_of deref b0 rest) as (attrs0 & Hattrs0 & _).
    rewrite Hattrs0, result_bind_Return.
    destruct attrs0 as [|o attrs1]; cbv beta iota; rewrite result_bind_Return.
    + destruct (IH acc Hne) as (new & -> & Hsub & Hiff).
      exists new. split_and!; [done|by constructor|].
      intros ch attrs. rewrite Hiff, elem_of_cons. split.
      * intros (? & ? & ?). eauto.
      * intros ([->|?] & Hret & Hattrs); [congruence|done].
    + destruct (IH (acc ++ [(b0 :: rest, o :: attrs1)]) Hne)
        as (new & Hloop & Hsub & Hiff).
      exists ((b0 :: rest, o :: attrs1) :: new). rewrite <-app_assoc in Hloop.
      split_and!; [exact Hloop|by constructor|].
      intros ch attrs. rewrite !elem_of_cons, Hiff. split.
      * intros [[= -> ->]|(? & ? & ?)]; [split_and!; [by left|done..]|eauto].
      * intros ([->|?] & Hret & Hattrs); [left|by right].
        rewrite Hattrs0 in Hret. by injection Hret as <-.
Qed.

Lemma base_chain_nonempty (b : ref) (ch : chain) :
  base_chain deref b ch → ch ≠ [].
Proof. intros [b'|b' p n _ _]; [done|]. by destruct n. Qed.

End ClassPageInit.

(** X5.  On a hierarchy without a cycle of bases the constructor of a
    class page returns, given a recursion limit above the rank of the
    class; its [baselists] pairs each chain of [nested_bases] whose
    unmasked members are not empty with those members, keeps the order of
    the chains, and holds no chain with nothing to show. *)
Theorem ClassPage_init_baselists
    (deref : ref → Documentable) (rank : ref → nat) (fuel : nat) (class : ref) :
  (∀ c p, p ∈ resolved_bases deref c → rank p < rank c) →
  rank class < fuel →
  ∃ chains page,
    nested_bases deref fuel class = Return chains
    ∧ ClassPage_init deref fuel class = Return page
    ∧ ob page = class
    ∧ (baselists page).*1 `sublist_of` chains
    ∧ ∀ ch attrs, (ch, attrs) ∈ baselists page
                  ↔ ch ∈ chains ∧ unmasked_attrs deref ch = Return attrs ∧ attrs ≠ [].
Proof.
  intros Hrank Hfuel.
  destruct (nested_bases_returns_acyclic deref rank fuel class Hrank Hfuel)
    as (chains & Hchains).
  destruct (baselists_loop deref chains []) as (new & Hloop & Hsub & Hiff).
  { apply Forall_forall. intros ch Hch.
    apply (nested_bases_base_chain deref fuel class chains Hchains) in Hch.
    by apply (base_chain_nonempty deref class). }
  exists chains, (mkClassPage class new 0). unfold ClassPage_init.
  rewrite Hchains. cbn [mbind result_bind]. rewrite Hloop. done.
Qed.

Lemma ClassPage_init_baselists_witness :
  ∃ chains page,
    nested_bases diamond_store 3 3 = Return chains
    ∧ ClassPage_init diamond_store 3 3 = Return page
    ∧ ob page = 3
    ∧ (baselists page).*1 `sublist_of` chains
    ∧ ∀ ch attrs, (ch, attrs) ∈ baselists page
                  ↔ ch ∈ chains ∧ unmasked_attrs diamond_store ch = Return attrs
                    ∧ attrs ≠ [].
Proof.
  apply (ClassPage_init_baselists diamond_store
           (λ c, match c with 0 => 0 | 1 => 1 | 2 => 1 | 3 => 2 | _ => 0 end)).
  - intros c p Hp.
    destruct c as [|[|[|[|[|[|c]]]]]]; vm_compute in Hp;
      repeat (apply elem_of_cons in Hp as [->|Hp]; [simpl; lia|]);
      by apply elem_of_nil in Hp.
  - simpl. lia.
Defined.

(** ** Lists with a separator after each item *)

Section Separated.

Context {A : Type} (g : A → Stan) (sep : Stan).

Lemma separated_length (xs : list A) :
  length (mjoin ((λ x, [g x; sep]) <$> xs)) = 2 * length xs.
Proof.
  induction xs as [|x xs IH]; [done|].
  rewrite fmap_cons. change (mjoin (?y :: ?l)) with (y ++ mjoin l).
  rewrite length_app, IH. simpl. lia.
Qed.

Lemma separated_lookup (xs : list A) (i : nat) (x : A) :
  xs !! i = Some x →
  mjoin ((λ x, [g x; sep]) <$> xs) !! (2 * i) = Some (g x)
  ∧ mjoin ((λ x, [g x; sep]) <$> xs) !! (2 * i + 1) = Some sep.
Proof.
  revert i. induction xs as [|x' xs IH]; intros i Hi; [done|].
  destruct i as [|i]; simpl in Hi.
  - by injection Hi as ->.
  - replace (2 * S i) with (S (S (2 * i))) by lia.
    replace (S (S (2 * i)) + 1) with (S (S (2 * i + 1))) by lia.
    apply (IH i Hi).
Qed.

(** Deleting the last element of such a list leaves the items with the
    separator between them. *)
Lemma separated_del_last (xs : list A) :
  xs ≠ [] →
  ∃ items,
    del_last (mjoin ((λ x, [g x; sep]) <$> xs)) = Return items
    ∧ length items = 2 * length xs - 1
    ∧ (∀ i x, xs !! i = Some x → items !! (2 * i) = Some (g x))
    ∧ (∀ i, S i < length xs → items !! (2 * i + 1) = Some sep).
Proof.
  intros Hne. destruct (exists_last Hne) as (xs' & x & Hxs).
  set (all := mjoin ((λ x, [g x; sep]) <$> xs)).
  assert (Hall : all = (mjoin ((λ x, [g x; sep]) <$> xs') ++ [g x]) ++ [sep]).
  { unfold all. rewrite Hxs, fmap_app, join_app. simpl.
    by rewrite <-app_assoc. }
  exists (mjoin ((λ x, [g x; sep]) <$> xs') ++ [g x]).
  assert (Hlen : length (mjoin ((λ x, [g x; sep]) <$> xs') ++ [g x])
                 = 2 * length xs - 1).
  { pose proof (separated_length xs) as Hl. fold all in Hl.
    rewrite Hall, length_app in Hl. simpl in Hl. lia. }
  split_and!.
  - rewrite Hall. apply del_last_snoc.
  - done.
  - intros i y Hi. pose proof (lookup_lt_Some _ _ _ Hi).
    destruct (separated_lookup xs i y Hi) as [H0 _]. fold all in H0.
    rewrite Hall, lookup_app_l in H0 by lia. done.
  - intros i Hi. destruct (lookup_lt_is_Some_2 xs i) as [y Hy]; [lia|].
    destruct (separated_lookup xs i y Hy) as [_ H1]. fold all in H1.
    rewrite Hall, lookup_app_l in H1 by lia. done.
Qed.

End Separated.

(** ** ClassPage.baseName and ClassPage.baseTables *)

Lemma slice_inner_middle {A : Type} (x : A) (mid : list A) (y : A) :
  slice_inner (x :: mid ++ [y]) = mid.
Proof.
  unfold slice_inner. simpl. rewrite length_app. simpl.
  replace (length mid + 1 - 0) with (S (length mid)) by lia. simpl.
  rewrite take_app_length. by rewrite drop_0.
Qed.

Section BaseName.

Variable deref : ref → Documentable.


End BaseName.

(** X6.  [baseName] raises [IndexError] on the empty chain.  For a chain
    of one or two classes it is the link to the first class alone.  For a
    longer chain the link is followed by a "(via ...)" part that names
    the classes strictly between the first and the last, the nearest to
    the last class first, with a comma between two of them and none at
    the end. *)
Theorem baseName_via_intermediate_bases
    (deref : ref → Documentable) (self_ob source_base m c : ref) (mid : list ref) :
  let link := name_link deref (page_url deref self_ob) in
  baseName deref self_ob [] = Raise IndexError
  ∧ baseName deref self_ob [source_base] = Return [link source_base]
  ∧ baseName deref self_ob [source_base; c] = Return [link source_base]
  ∧ ∃ tail,
      baseName deref self_ob (source_base :: (m :: mid) ++ [c])
        = Return [link source_base; Str " (via "; Seq tail; Str ")"]
      ∧ length tail = 2 * length (m :: mid) - 1
      ∧ (∀ i b, reverse (m :: mid) !! i = Some b → tail !! (2 * i) = Some (link b))
      ∧ (∀ i, S i < length (m :: mid) → tail !! (2 * i + 1) = Some (Str ", ")).
Proof.
  intros link. split_and!; [done..|].
  destruct (separated_del_last link (Str ", ") (reverse (m :: mid)))
    as (tail & Htail & Hlen & Hitem & Hsep).
  { intros Hrev. apply (f_equal length) in Hrev. by rewrite length_reverse in Hrev. }
  exists tail. rewrite length_reverse in Hlen, Hsep. split_and!; [|done..].
  unfold baseName. rewrite slice_inner_middle.
  rewrite (for_loop_append (λ b, [link b; Str ", "])).
  simpl app. rewrite result_bind_Return, Htail. done.
Qed.

Section BaseTables.

Variable deref : ref → Documentable.


Variable rank : ref → nat.
Hypothesis base_rank : ∀ c p, p ∈ resolved_bases deref c → rank p < rank c.




End BaseTables.



(** The page of [A] in the diamond: the base list of [A] alone is made
    (its member [m] is visible) and no base table comes of it. *)
Example baseTables_diamond_root :
  (page ← ClassPage_init diamond_store 3 0; Return (baselists page))
    = Return [([0], [4])]
  ∧ (page ← ClassPage_init diamond_store 3 0; baseTables diamond_store page)
    = Return [].
Proof. split; reflexivity. Qed.

(** ** CommonPage.namespace *)

Section Namespace.

Variable deref : ref → Documentable.
Variable url : string.

(** Once a part has been added, each further object with a page of its
    own adds a dot, a [wbr] and its link. *)
Lemma namespace_loop_nonempty (fuel : nat) (o : ref) (owners : list ref)
    (parts : list Stan) :
  parent_chain deref o owners →
  length owners < fuel →
  parts ≠ [] →
  namespace_loop deref fuel url (Some o) parts
  = Some (parts ++ mjoin ((λ o, [Str "."; wbr; name_link deref url o])
                            <$> List.filter (has_own_page deref) (o :: owners))).
Proof.
  revert o fuel parts. induction owners as [|p up IH]; intros o fuel parts Hchain Hfuel Hne;
    (destruct fuel as [|fuel]; [simpl in Hfuel; lia|]); simpl in Hchain |- *;
    unfold has_own_page.
  - rewrite Hchain. destruct fuel; destruct (documentation_location (deref o));
      destruct parts; simpl; try done; by rewrite ?app_nil_r, <-?app_assoc.
  - destruct Hchain as [-> Hup]. simpl in Hfuel.
    destruct (documentation_location (deref o)).
    + destruct parts as [|x parts]; [done|].
      rewrite (IH p fuel _ Hup) by (lia || by destruct parts).
      f_equal. simpl. by rewrite <-!app_assoc.
    + by rewrite (IH p fuel parts Hup) by (lia || done).
    + by rewrite (IH p fuel parts Hup) by (lia || done).
Qed.

Lemma namespace_loop_empty (fuel : nat) (o : ref) (owners : list ref) :
  parent_chain deref o owners →
  length owners < fuel →
  namespace_loop deref fuel url (Some o) []
  = Some match List.filter (has_own_page deref) (o :: owners) with
         | [] => []
         | a :: l => name_link deref url a :: mjoin ((λ o, [Str "."; wbr; name_link deref url o]) <$> l)
         end.
Proof.
  revert o fuel. induction owners as [|p up IH]; intros o fuel Hchain Hfuel;
    (destruct fuel as [|fuel]; [simpl in Hfuel; lia|]); simpl in Hchain.
  - cbn [namespace_loop List.filter]. unfold has_own_page. rewrite Hchain.
    by destruct fuel; destruct (documentation_location (deref o)).
  - destruct Hchain as [Hp Hup]. simpl in Hfuel.
    cbn [namespace_loop]. rewrite Hp.
    change (List.filter (has_own_page deref) (o :: p :: up))
      with (if has_own_page deref o
            then o :: List.filter (has_own_page deref) (p :: up)
            else List.filter (has_own_page deref) (p :: up)).
    unfold has_own_page at 1.
    destruct (documentation_location (deref o)).
    + rewrite (namespace_loop_nonempty fuel p up) by (done || lia). done.
    + by rewrite (IH p fuel Hup) by lia.
    + by rewrite (IH p fuel Hup) by lia.
Qed.

Lemma reverse_preceded (l : list ref) :
  reverse (mjoin ((λ o, [Str "."; wbr; name_link deref url o]) <$> l))
  = mjoin ((λ o, [name_link deref url o; wbr; Str "."]) <$> reverse l).
Proof.
  induction l as [|a l IH]; [done|].
  rewrite fmap_cons. change (mjoin (?y :: ?k)) with (y ++ mjoin k).
  rewrite reverse_app, IH, (reverse_cons l a), fmap_app, join_app. done.
Qed.

End Namespace.

(** X8.  For an object whose chain of parents ends, [namespace] returns
    (its loop ends within one round per object of the chain).  The
    result holds one link for each object of the chain that has a page
    of its own, the outermost first, and between two links a [wbr]
    followed by a dot: followed by one more such separator it is the
    sequence of the triples link, [wbr], dot. *)
Theorem namespace_links_outermost_first
    (deref : ref → Documentable) (fuel : nat) (self_ob obj : ref)
    (owners : list ref) :
  parent_chain deref obj owners →
  length owners < fuel →
  ∃ ns,
    namespace deref fuel self_ob obj = Some ns
    ∧ match reverse (List.filter (has_own_page deref) (obj :: owners)) with
      | [] => ns = []
      | own =>
          ns ++ [wbr; Str "."]
          = mjoin ((λ o, [name_link deref (page_url deref self_ob) o;
                          wbr; Str "."]) <$> own)
      end.
Proof.
  intros Hchain Hfuel. unfold namespace.
  rewrite (namespace_loop_empty deref (page_url deref self_ob) fuel obj owners Hchain Hfuel).
  cbn [mbind option_bind]. eexists. split; [reflexivity|].
  destruct (List.filter (has_own_page deref) (obj :: owners)) as [|a l]; [done|].
  rewrite !reverse_cons, reverse_preceded.
  destruct (reverse l ++ [a]) as [|x k] eqn:E; [by destruct (reverse l)|].
  rewrite <-E, fmap_app, join_app. simpl. by rewrite <-app_assoc.
Qed.

Lemma namespace_links_outermost_first_witness :
  ∃ ns,
    namespace package_store 3 0 3 = Some ns
    ∧ ns ++ [wbr; Str "."]
      = mjoin ((λ o, [name_link package_store (page_url package_store 0) o;
                      wbr; Str "."]) <$> [0; 1]).
Proof.
  destruct (namespace_links_outermost_first package_store 3 0 3 [1; 0])
    as (ns & Hns & Hform).
  - vm_compute. done.
  - simpl. lia.
  - exists ns. split; [exact Hns|exact Hform].
Defined.

(** ** The children of a page *)

Lemma Sorted_weaken {A : Type} (R R' : A → A → Prop) (l : list A) :
  (∀ a b, R a b → R' a b) → Sorted R l → Sorted R' l.
Proof.
  intros HR. induction 1 as [|a l Hl IH Hhd]; constructor; [done|].
  destruct Hhd; constructor; auto.
Qed.

(** X9.  [CommonPage.children] holds the visible members of the object
    and nothing else, each as often as the members hold it; a member is
    followed by one of the same or a lower privacy value; and members of
    one privacy value stay in the order of [contents]. *)
Theorem CommonPage_children_sorted_stable
    (deref : ref → Documentable) (self_ob : ref) (v : Z) :
  CommonPage_children deref self_ob
    ≡ₚ List.filter (λ o, isVisible (deref o)) (values (contents (deref self_ob)))
  ∧ Sorted (λ a b, (privacyClass_value (deref b) ≤ privacyClass_value (deref a))%Z)
      (CommonPage_children deref self_ob)
  ∧ List.filter (λ o, (privacyClass_value (deref o) =? v)%Z)
      (CommonPage_children deref self_ob)
    = List.filter (λ o, (privacyClass_value (deref o) =? v)%Z)
        (List.filter (λ o, isVisible (deref o)) (values (contents (deref self_ob)))).
Proof.
  unfold CommonPage_children. split_and!.
  - apply sorted_Permutation.
  - eapply Sorted_weaken; [|apply (sorted_Sorted Z.leb)].
    + intros a b Hab. simpl in Hab. lia.
    + intros k1 k2. lia.
  - apply (sorted_stable Z.leb). intros a b Ha Hb. lia.
Qed.

Lemma key_le_total (k1 k2 : Z * string) :
  key_le k1 k2 = true ∨ key_le k2 k1 = true.
Proof.
  unfold key_le. destruct k1 as [z1 s1], k2 as [z2 s2]. simpl.
  destruct (Z.ltb_spec z1 z2); [by left|].
  destruct (Z.ltb_spec z2 z1); [by right|].
  assert (z1 = z2) as -> by lia. rewrite Z.eqb_refl. simpl.
  apply String.leb_total.
Qed.

(** X10.  In the children of a package page each child is followed by
    one of a lower privacy value, or by one of the same privacy value
    whose full name is not smaller. *)
Theorem PackagePage_children_sorted (deref : ref → Documentable) (pkg : ref) :
  Sorted
    (λ a b, (privacyClass_value (deref b) < privacyClass_value (deref a))%Z
            ∨ (privacyClass_value (deref a) = privacyClass_value (deref b)
               ∧ String.leb (fullName (deref a)) (fullName (deref b)) = true))
    (PackagePage_children deref pkg).
Proof.
  unfold PackagePage_children.
  eapply Sorted_weaken; [|apply (sorted_Sorted key_le), key_le_total].
  intros a b. unfold key_le, package_key. simpl.
  intros [Hlt|[Heq Hle]%andb_true_iff]%orb_true_iff; [left; lia|right].
  split; [lia|done].
Qed.

(** ** A package and its [__init__] module *)

(** X11.  For a package whose [contents] has no [__init__],
    [packageInitTable] and [methods] raise [KeyError] for that key; when
    the key is there neither of them raises. *)
Theorem PackagePage_without_init_KeyError (deref : ref → Documentable) (pkg : ref) :
  if dict_mem (contents (deref pkg)) "__init__"
  then (∃ table, PackagePage_packageInitTable deref pkg = Return table)
       ∧ (∃ ms, PackagePage_methods deref pkg = Return ms)
  else PackagePage_packageInitTable deref pkg = Raise (KeyError "__init__")
       ∧ PackagePage_methods deref pkg = Raise (KeyError "__init__").
Proof.
  unfold PackagePage_packageInitTable, PackagePage_methods, dict_index, dict_mem.
  destruct (dict_get (contents (deref pkg)) "__init__") as [init|]; simpl; [|done].
  split; [|eauto]. destruct (sorted _ _ _); eauto.
Qed.

Example bare_package_KeyError :
  PackagePage_children bare_package_store 0 = [1]
  ∧ PackagePage_packageInitTable bare_package_store 0 = Raise (KeyError "__init__")
  ∧ PackagePage_methods bare_package_store 0 = Raise (KeyError "__init__").
Proof. split_and!; reflexivity. Qed.

(** X12.  Every member of [__init__] that the package page documents in
    its child list ([PackagePage.methods]) is also a row of its init
    table, which is then not empty. *)
Theorem PackagePage_methods_in_init_table
    (deref : ref → Documentable) (pkg : ref) (ms : list ref) (o : ref) :
  PackagePage_methods deref pkg = Return ms →
  o ∈ ms →
  ∃ init members,
    dict_get (contents (deref pkg)) "__init__" = Some init
    ∧ PackagePage_packageInitTable deref pkg
      = Return [from_init_label; ChildTable init members]
    ∧ o ∈ members
    ∧ isVisible (deref o) = true
    ∧ documentation_location (deref o) = PARENT_PAGE.
Proof.
  unfold PackagePage_methods, dict_index.
  destruct (dict_get (contents (deref pkg)) "__init__") as [init|] eqn:Hinit; [|done].
  simpl. intros [= <-] Ho.
  unfold methods in Ho. apply list_elem_of_In, filter_In in Ho as [Hin Hloc].
  apply list_elem_of_In in Hin.
  assert (Hvis : isVisible (deref o) = true).
  { by destruct (documentation_location (deref o)). }
  destruct (PackagePage_packageInitTable_members deref pkg init Hinit)
    as (members & Hmem & Htable).
  assert (Hom : o ∈ members) by (by apply Hmem).
  exists init, members. split_and!; [done| |done|done|].
  - rewrite Htable. destruct members; [by apply elem_of_nil in Hom|done].
  - by destruct (documentation_location (deref o)).
Qed.

Lemma PackagePage_methods_in_init_table_witness :
  ∃ init members,
    dict_get (contents (package_store 0)) "__init__" = Some init
    ∧ PackagePage_packageInitTable package_store 0
      = Return [from_init_label; ChildTable init members]
    ∧ 3 ∈ members
    ∧ isVisible (package_store 3) = true
    ∧ documentation_location (package_store 3) = PARENT_PAGE.
Proof.
  apply (PackagePage_methods_in_init_table package_store 0 [3] 3).
  - reflexivity.
  - left.
Defined.

(** ** What overriding_subclasses yields *)

Lemma first_overrider_descendant (deref : ref → Documentable) (nm : string)
    (c d : ref) :
  first_overrider deref nm c d →
  isVisible (deref d) = true
  ∧ dict_mem (contents (deref d)) nm = true
  ∧ descendant deref c d.
Proof.
  induction 1 as [c sc Hin Hvis Hmem|c sc d Hin Hvis Hmem Hbelow IH].
  - split_and!; [done..|]. by apply desc_child.
  - destruct IH as (? & ? & ?). split_and!; [done..|].
    by apply (desc_below deref c sc d).
Qed.

(** X13.  Every class that [overriding_subclasses] yields for a class
    and a name is visible, has a member of that name, and is a proper
    descendant of the class in the subclass graph. *)
Theorem overriding_subclasses_yields_visible_overriders
    (deref : ref → Documentable) (fuel : nat) (c : ref) (nm : string)
    (found : list ref) (d : ref) :
  overriding_subclasses deref fuel c nm true = Return found →
  d ∈ found →
  isVisible (deref d) = true
  ∧ dict_mem (contents (deref d)) nm = true
  ∧ descendant deref c d.
Proof.
  intros Hret Hd.
  apply (overriding_subclasses_elem_of deref fuel c nm true found d Hret) in Hd.
  by apply first_overrider_descendant.
Qed.

Lemma overriding_subclasses_yields_visible_overriders_witness :
  isVisible (override_store 1) = true
  ∧ dict_mem (contents (override_store 1)) "m" = true
  ∧ descendant override_store 0 1.
Proof.
  apply (overriding_subclasses_yields_visible_overriders override_store 2 0 "m" [1] 1).
  - reflexivity.
  - left.
Defined.

(** ** More on assembleList *)

(** X14.  [assembleList] never raises: its [del r[-1]] is only reached
    with a list that is not empty.  It returns [None] exactly when every
    name of the list is registered as an invisible object, and otherwise
    a list that starts with the label and has at least one more node. *)
Theorem assembleList_never_raises
    (deref : ref → Documentable) (system : System) (label : string)
    (lst : list string) (idbase page_url : string) :
  ∃ p,
    assembleList deref system label lst idbase page_url = Return p
    ∧ (p = None ↔
       ∀ nm, nm ∈ lst →
             ∃ o, allobjects system !! nm = Some o ∧ isVisible (deref o) = false)
    ∧ ∀ l, p = Some l → head l = Some (Str label) ∧ 2 ≤ length l.
Proof.
  pose proof (filter_shown_nil_iff deref system lst) as Hnil. unfold assembleList.
  destruct (List.filter (shown deref system) lst) as [|nm names] eqn:E.
  - exists None. split_and!; [done| |done]. split; [intros _; by apply Hnil|done].
  - destruct (commasep_snoc system page_url (nm :: names)) as (items & -> & Hsnoc);
      [done|].
    eexists. split; [reflexivity|]. split.
    { split; [done|]. intros Hall. by apply Hnil in Hall. }
    intros l [= <-]. split; [done|].
    apply (f_equal length) in Hsnoc.
    rewrite length_app, item_then_comma_length in Hsnoc. simpl in *. lia.
Qed.

(** X15.  A list that [assembleList] returns holds, besides the label and
    the commas, one node for each name that passes the filter: the plain
    name when the registry does not know it, and a link to the registered
    object, which is visible, when it does.  No invisible object is ever
    linked. *)
Theorem assembleList_links_only_visible
    (deref : ref → Documentable) (system : System) (label : string)
    (lst : list string) (idbase page_url : string) (l : list Stan) (node : Stan) :
  assembleList deref system label lst idbase page_url = Return (Some l) →
  node ∈ l →
  node = Str label
  ∨ node = Str ", "
  ∨ (∃ nm, nm ∈ lst ∧ allobjects system !! nm = None ∧ node = Str nm)
  ∨ (∃ nm o, nm ∈ lst ∧ allobjects system !! nm = Some o
             ∧ isVisible (deref o) = true
             ∧ node = Tag "code" [] [taglink o page_url None]).
Proof.
  unfold assembleList.
  destruct (List.filter (shown deref system) lst) as [|nm0 names] eqn:E; [done|].
  destruct (commasep_snoc system page_url (nm0 :: names)) as (items & -> & Hsnoc);
    [done|].
  simpl. intros [= <-] [->|Hin]%elem_of_cons; [by left|]. right.
  assert (Hin' : node ∈ items ++ [Str ", "]) by (apply elem_of_app; by left).
  rewrite Hsnoc in Hin'. apply list_elem_of_join in Hin' as (pair & Hnode & Hpair).
  apply list_elem_of_fmap in Hpair as (nm & -> & Hnm).
  unfold item_then_comma in Hnode.
  apply elem_of_cons in Hnode as [->|Hnode];
    [|apply list_elem_of_singleton in Hnode as ->; by left].
  right. rewrite <-E in Hnm.
  apply list_elem_of_In, filter_In in Hnm as [Hlst%list_elem_of_In Hshown].
  unfold shown in Hshown. unfold one.
  destruct (allobjects system !! nm) as [o|] eqn:Ho.
  - right. exists nm, o. by split_and!.
  - left. exists nm. by split_and!.
Qed.

Lemma assembleList_links_only_visible_witness :
  Tag "code" [] [taglink 1 "p.html" None] = Str "Known subclasses: "
  ∨ Tag "code" [] [taglink 1 "p.html" None] = Str ", "
  ∨ (∃ nm, nm ∈ ["x"; "y"; "z"] ∧ allobjects (registry xyz_objs) !! nm = None
           ∧ Tag "code" [] [taglink 1 "p.html" None] = Str nm)
  ∨ (∃ nm o, nm ∈ ["x"; "y"; "z"] ∧ allobjects (registry xyz_objs) !! nm = Some o
             ∧ isVisible (xyz_store o) = true
             ∧ Tag "code" [] [taglink 1 "p.html" None]
               = Tag "code" [] [taglink o "p.html" None]).
Proof.
  eapply (assembleList_links_only_visible xyz_store (registry xyz_objs)
            "Known subclasses: " ["x"; "y"; "z"] "moreSubclasses" "p.html").
  - reflexivity.
  - right. right. right. left.
Defined.

(** ** More on format_decorators *)

(** X16.  When no decorator is a call that resolves to one of the two
    deprecation names, [format_decorators] yields one entry for each
    decorator, in order; in particular a decorator that is not a call is
    always shown, whatever its name resolves to, and an object whose
    [decorators] is [None] yields nothing. *)
Theorem format_decorators_shows_all
    (deref : ref → Documentable) (node2fullname : ast_expr → ref → option string)
    (to_source : ast_expr → string) (obj : ref) :
  (∀ func args fn,
     ast_Call func args ∈ default [] (decorators (deref obj)) →
     node2fullname func obj = Some fn →
     fn ≠ "twisted.python.deprecate.deprecated"
     ∧ fn ≠ "twisted.python.deprecate.deprecatedProperty") →
  format_decorators deref node2fullname to_source obj
  = (λ dec, ("@" +:+ strip (to_source dec), br))
      <$> default [] (decorators (deref obj)).
Proof.
  unfold format_decorators.
  induction (default [] (decorators (deref obj))) as [|dec decs IH]; intros Hno;
    [done|]. simpl.
  assert (Hdec : is_deprecated_call node2fullname obj dec = false).
  { destruct dec as [| |func args|]; try done. simpl.
    destruct (node2fullname func obj) as [fn|] eqn:Hfn; [|done].
    destruct (Hno func args fn) as [H1 H2]; [left|done|].
    apply bool_decide_eq_false. unfold deprecated_names.
    intros [->|[->|[]%elem_of_nil]%elem_of_cons]%elem_of_cons; done. }
  rewrite Hdec. f_equal. apply IH.
  intros func args fn Hin Hfn. apply (Hno func args fn); [by right|done].
Qed.

Lemma format_decorators_shows_all_witness :
  format_decorators bare_decorated_store example_node2fullname example_to_source 0
  = (λ dec, ("@" +:+ strip (example_to_source dec), br))
      <$> [ast_Name "deprecated"; ast_Call (ast_Name "wraps") [ast_Name "g"]].
Proof.
  apply (format_decorators_shows_all bare_decorated_store example_node2fullname
           example_to_source 0).
  intros func args fn Hin Hfn. vm_compute in Hin.
  apply elem_of_cons in Hin as [Hin|Hin]; [done|].
  apply list_elem_of_singleton in Hin. injection Hin as -> ->.
  vm_compute in Hfn. injection Hfn as <-. split; discriminate.
Defined.

(** ** The child list of a class page *)

Section ChildList.

Variable deref : ref → Documentable.
Variable allbases : ref → list ref.
Variable system : System.

(** A call of [functionExtras] changes nothing of the page but its
    counter, which it does not decrease. *)
Lemma functionExtras_keeps_page (fuel : nat) (self self' : ClassPage)
    (data : ref) (extras : Extras) :
  functionExtras deref allbases fuel system self data = Return (extras, self') →
  ob self' = ob self
  ∧ baselists self' = baselists self
  ∧ overridenInCount self ≤ overridenInCount self'.
Proof.
  unfold functionExtras.
  destruct (overrides_annotation _ _ _ _) as [r|e]; [|done].
  rewrite result_bind_Return.
  destruct (overriding_subclasses _ _ _ _ _) as [found|e]; [|done].
  rewrite result_bind_Return.
  destruct (sorted _ _ found) as [|o ocs].
  - by intros [= <- <-].
  - destruct (assembleList _ _ _ _ _ _) as [[l|]|e]; simpl; [| |done];
      intros [= <- <-]; simpl; split_and!; (done || lia).
Qed.

Lemma childlist_loop_children (fuel : nat) (ms : list ref) (r : list Child)
    (self : ClassPage) (out : list Child * ClassPage) :
  for_loop ms
    (λ c '(r, self),
       '(extras, self) ← functionExtras deref allbases fuel system self c;
       if is_Function (deref c)
       then Return (r ++ [FunctionChild c extras], self)
       else Return (r ++ [AttributeChild c extras], self))
    (r, self) = Return out →
  ∃ new,
    out.1 = r ++ new
    ∧ child_ob <$> new = ms
    ∧ Forall (λ ch, match ch with
                    | FunctionChild c _ => is_Function (deref c) = true
                    | AttributeChild c _ => is_Function (deref c) = false
                    end) new
    ∧ ob out.2 = ob self
    ∧ baselists out.2 = baselists self
    ∧ overridenInCount self ≤ overridenInCount out.2.
Proof.
  revert r self. induction ms as [|c ms IH]; intros r self.
  - intros [= <-]. exists []. rewrite app_nil_r. by split_and!.
  - cbn [for_loop].
    destruct (functionExtras deref allbases fuel system self c)
      as [[extras self1]|e] eqn:Hextras; [|done].
    rewrite result_bind_Return. cbv beta iota.
    apply functionExtras_keeps_page in Hextras as (Hob & Hbl & Hcount).
    destruct (is_Function (deref c)) eqn:Hfun; rewrite result_bind_Return;
      intros (new & Hout & Hobs & Hkinds & Hob' & Hbl' & Hcount')%IH;
      eexists (_ :: new); rewrite Hout, <-app_assoc;
      (split_and!; [done|by rewrite fmap_cons, Hobs|by constructor
                   |congruence|congruence|lia]).
Qed.

End ChildList.

(** X17.  When [childlist] returns on a class page, it has made one child
    for each method of the page, in the order of [methods]: a
    [FunctionChild] for a function and an [AttributeChild] for anything
    else; the page keeps its object and its base lists, and its counter
    has not decreased. *)
Theorem childlist_follows_methods
    (deref : ref → Documentable) (allbases : ref → list ref) (system : System)
    (fuel : nat) (self page' : ClassPage) (children : list Child) :
  childlist deref allbases fuel system self = Return (children, page') →
  child_ob <$> children = methods deref (ob self)
  ∧ Forall (λ ch, match ch with
                  | FunctionChild c _ => is_Function (deref c) = true
                  | AttributeChild c _ => is_Function (deref c) = false
                  end) children
  ∧ ob page' = ob self
  ∧ baselists page' = baselists self
  ∧ overridenInCount self ≤ overridenInCount page'.
Proof.
  unfold childlist.
  intros (new & Hout & H)%childlist_loop_children. simpl in Hout. by subst.
Qed.

Lemma childlist_follows_methods_witness :
  child_ob <$> [FunctionChild 2
                  (mkExtras
                     [Tag "div" [("class", "interfaceinfo")]
                        [Seq [Str "overridden in ";
                              Tag "code" [] [taglink 1 "mod.Base.html" None]]]]
                     (Some "overridenIn1"))]
  = methods override_store 0.
Proof.
  destruct (childlist_follows_methods override_store override_allbases
              (registry override_objs) 2 (mkClassPage 0 [] 0) (mkClassPage 0 [] 1)
              [FunctionChild 2
                 (mkExtras
                    [Tag "div" [("class", "interfaceinfo")]
                       [Seq [Str "overridden in ";
                             Tag "code" [] [taglink 1 "mod.Base.html" None]]]]
                    (Some "overridenIn1"))]) as [H _].
  - reflexivity.
  - exact H.
Defined.

(** ** The signature and the extras of a class page *)

Lemma separated_first_snoc {A : Type} (g : A → Stan) (sep : Stan) (x0 : A)
    (rest : list A) :
  (g x0 :: mjoin ((λ x, [sep; g x]) <$> rest)) ++ [sep]
  = mjoin ((λ x, [g x; sep]) <$> x0 :: rest).
Proof.
  revert x0. induction rest as [|x1 rest IH]; intros x0; [done|].
  specialize (IH x1). simpl in *. do 2 f_equal. exact IH.
Qed.

Lemma classSignature_loop_later (url : ref → string)
    (intersphinx_getLink : string → option string) (idx : nat)
    (zipped : list (string * string * option ref)) (r : list Stan) :
  classSignature_loop url intersphinx_getLink (S idx) zipped r
  = r ++ mjoin ((λ t, [Str ", ";
                       base_node url intersphinx_getLink t.1.1 t.1.2 t.2])
                  <$> zipped).
Proof.
  revert idx r. induction zipped as [|[[nm full] base] zipped IH]; intros idx r.
  - by rewrite app_nil_r.
  - cbn [classSignature_loop]. rewrite decide_True by done. rewrite IH.
    simpl. by rewrite <-!app_assoc.
Qed.

(** X18.  [classSignature] is empty for a class without bases.
    Otherwise it is an opening parenthesis, one node for each base in
    order, a comma between two of them and none after the last, and a
    closing parenthesis: [2n + 1] nodes for [n] bases, where [n] is the
    length of the shortest of [rawbases], [bases] and [baseobjects]. *)
Theorem classSignature_shape
    (deref : ref → Documentable) (rawbases bases : ref → list string)
    (url : ref → string) (intersphinx_getLink : string → option string)
    (self_ob : ref) :
  match zip (zip (rawbases self_ob) (bases self_ob)) (baseobjects (deref self_ob)) with
  | [] => classSignature deref rawbases bases url intersphinx_getLink self_ob = []
  | zipped =>
      ∃ items,
        classSignature deref rawbases bases url intersphinx_getLink self_ob
          = Str "(" :: items ++ [Str ")"]
        ∧ length items = 2 * length zipped - 1
        ∧ (∀ i nm full_name base,
             zipped !! i = Some (nm, full_name, base) →
             items !! (2 * i)
             = Some (base_node url intersphinx_getLink nm full_name base))
        ∧ (∀ i, S i < length zipped → items !! (2 * i + 1) = Some (Str ", "))
  end.
Proof.
  unfold classSignature.
  destruct (zip (zip (rawbases self_ob) (bases self_ob)) (baseobjects (deref self_ob)))
    as [|[[nm0 full0] base0] rest]; [done|].
  set (node := λ t : string * string * option ref,
                 base_node url intersphinx_getLink t.1.1 t.1.2 t.2).
  set (zipped := (nm0, full0, base0) :: rest).
  exists (node (nm0, full0, base0) :: mjoin ((λ t, [Str ", "; node t]) <$> rest)).
  pose proof (separated_first_snoc node (Str ", ") (nm0, full0, base0) rest)
    as Hsnoc. fold zipped in Hsnoc.
  assert (Hlen : length (node (nm0, full0, base0)
                           :: mjoin ((λ t, [Str ", "; node t]) <$> rest))
                 = 2 * length zipped - 1).
  { apply (f_equal length) in Hsnoc.
    rewrite length_app, (separated_length node (Str ", ")) in Hsnoc.
    simpl in Hsnoc. simpl. lia. }
  split_and!.
  - unfold zipped. cbn [classSignature_loop]. rewrite decide_False by auto.
    rewrite classSignature_loop_later. done.
  - done.
  - intros i nm full base Hi. pose proof (lookup_lt_Some _ _ _ Hi).
    destruct (separated_lookup node (Str ", ") zipped i _ Hi) as [H0 _].
    rewrite <-Hsnoc, lookup_app_l in H0 by lia. done.
  - intros i Hi. destruct (lookup_lt_is_Some_2 zipped i) as [t Ht]; [lia|].
    destruct (separated_lookup node (Str ", ") zipped i _ Ht) as [_ H1].
    rewrite <-Hsnoc, lookup_app_l in H1 by lia. done.
Qed.

